(** * StatsPullerManager: scheduling and dispatch of pulled atoms

    A shallow embedding of [StatsPullerManager.cpp] (statsd, namespace
    [android::os::statsd]) and the properties of its subscriber registry,
    of the single pulling alarm and of the fired-alarm dispatch.

    Conventions of the embedding:
    - [int64_t] and [int] values are integers of [Z]; every arithmetic
      operation of the source that can leave the type is followed by
      [wrap64] or [wrap32] (two's complement wrap-around), and [/] of C++ is
      [Z.quot] (truncation towards zero);
    - [std::map<K, V>] is a [gmap]; where the source iterates over a map the
      entries are visited in ascending key order ([entries]);
    - a [wp<PullDataReceiver>] is the identity of the object it refers to
      ([Handle]); whether [promote()] succeeds is decided by the environment;
    - a [ReceiverInfo*] kept in [needToPull] is a pair of the map key and the
      position in that key's list;
    - every call into a collaborator (puller, StatsdStats, the companion
      service, a receiver) is appended to the field [effects] of the manager,
      oldest first. The field is not a member of the C++ class: it records
      what the calls of the class did to the outside. *)

From stdpp Require Import gmap list sorting.

Local Open Scope Z_scope.

(** ** Machine integers *)

Definition INT64_MAX : Z := 9223372036854775807.
Definition INT64_MIN : Z := -9223372036854775808.

Definition wrap64 (z : Z) : Z := (z + 2 ^ 63) `mod` 2 ^ 64 - 2 ^ 63.
Definition wrap32 (z : Z) : Z := (z + 2 ^ 31) `mod` 2 ^ 32 - 2 ^ 31.

Definition int64_range (z : Z) : Prop := INT64_MIN ≤ z ≤ INT64_MAX.

(** [const int64_t NO_ALARM_UPDATE = INT64_MAX;] *)
Definition NO_ALARM_UPDATE : Z := INT64_MAX.

(** Modelled from the spec: [NS_PER_SEC] is used by RegisterReceiver and
    defined in a header of statsd that is not among the sources; the
    specification reads [60 * NS_PER_SEC] as 60 seconds in nanoseconds. *)
Definition NS_PER_SEC : Z := 1000000000.

(** ** Data *)

Abbreviation Handle := nat (only parsing).

(** [LogEvent], as far as the manager touches it: the two timestamps it
    sets, and the rest of the event as an opaque number. *)
Record LogEvent := mkLogEvent {
  eventPayload : Z;
  elapsedTimestampNs : Z;
  logdWallClockTimestampNs : Z
}.

Definition setElapsedTimestampNs (ts : Z) (e : LogEvent) : LogEvent :=
  mkLogEvent (eventPayload e) ts (logdWallClockTimestampNs e).

Definition setLogdWallClockTimestampNs (ts : Z) (e : LogEvent) : LogEvent :=
  mkLogEvent (eventPayload e) (elapsedTimestampNs e) ts.

(** [ReceiverInfo] of StatsPullerManager.h. *)
Record ReceiverInfo := mkReceiverInfo {
  nextPullTimeNs : Z;
  intervalNs : Z;
  receiver : Handle
}.

(** A [StatsPuller] object. Its methods are implemented outside this file:
    [pullAnswer n data] is what the [n]-th call of [Pull(data)] on the object
    returns and leaves in the buffer, [pullCalls] counts the calls made so
    far, and the two cache methods return the number of cleared entries. *)
Record StatsPuller := mkStatsPuller {
  pullAnswer : nat → list LogEvent → bool * list LogEvent;
  pullCalls : nat;
  forceClearCacheAnswer : Z;
  clearCacheIfNecessaryAnswer : Z → Z
}.

(** [PullAtomInfo] of StatsPullerManager.h. *)
Record PullAtomInfo := mkPullAtomInfo {
  additiveFields : list Z;
  coolDownNs : Z;
  puller : StatsPuller;
  pullTimeoutNs : Z
}.

(** Calls into the collaborators. [OnDataPulled] and the puller calls carry
    the tag of the atom they were made for. *)
Inductive Effect :=
  | PullerPull (tagId : Z)
  | NotePullFailed (tagId : Z)
  | NotePullDelay (tagId : Z) (delayNs : Z)
  | NotePullerCallbackRegistrationChanged (atomTag : Z) (registered : bool)
  | SetPullingAlarm (timeMs : Z)
  | OnDataPulled (tagId : Z) (rcv : Handle) (data : list LogEvent)
                 (pullSuccess : bool) (elapsedTimeNs : Z)
  | PullerSetStatsCompanionService (tagId : Z) (service : option nat)
  | PullerForceClearCache (tagId : Z)
  | PullerClearCacheIfNecessary (tagId : Z) (timestampNs : Z).

(** The state of a [StatsPullerManager] ([kAllPullAtomInfo] is a static
    member of the class). *)
Record Manager := mkManager {
  kAllPullAtomInfo : gmap Z PullAtomInfo;
  mReceivers : gmap Z (list ReceiverInfo);
  mNextPullTimeNs : Z;
  mStatsCompanionService : option nat;
  effects : list Effect
}.

(** What the environment answers during one call of [OnAlarmFired]:
    the wall clock read on entry, the elapsed-realtime clock read after the
    pull of a tag, and whether the receiver registered for a tag can still be
    promoted. *)
Record Env := mkEnv {
  getWallClockNs : Z;
  getElapsedRealtimeNs : Z → Z;
  promote : Z → Handle → bool
}.

Definition emit (e : Effect) (st : Manager) : Manager :=
  mkManager (kAllPullAtomInfo st) (mReceivers st) (mNextPullTimeNs st)
            (mStatsCompanionService st) (effects st ++ [e]).

Definition set_kAllPullAtomInfo (m : gmap Z PullAtomInfo) (st : Manager) : Manager :=
  mkManager m (mReceivers st) (mNextPullTimeNs st)
            (mStatsCompanionService st) (effects st).

Definition set_mReceivers (m : gmap Z (list ReceiverInfo)) (st : Manager) : Manager :=
  mkManager (kAllPullAtomInfo st) m (mNextPullTimeNs st)
            (mStatsCompanionService st) (effects st).

Definition set_mNextPullTimeNs (t : Z) (st : Manager) : Manager :=
  mkManager (kAllPullAtomInfo st) (mReceivers st) t
            (mStatsCompanionService st) (effects st).

Definition set_mStatsCompanionService (s : option nat) (st : Manager) : Manager :=
  mkManager (kAllPullAtomInfo st) (mReceivers st) (mNextPullTimeNs st)
            s (effects st).

(** The entries of a [std::map] with integer keys, in iteration order. *)
Definition key_le {A} (a b : Z * A) : Prop := a.1 ≤ b.1.

Global Instance key_le_dec {A} : RelDecision (@key_le A).
Proof. intros a b. unfold key_le. apply _. Defined.

Definition entries {A} (m : gmap Z A) : list (Z * A) :=
  merge_sort key_le (map_to_list m).

(** ** The manager *)

(** [StatsPullerManager::StatsPullerManager()], over the table of pullers
    the process starts with. *)
Definition initial (table : gmap Z PullAtomInfo) : Manager :=
  mkManager table ∅ NO_ALARM_UPDATE None [].

Definition called (p : StatsPuller) : StatsPuller :=
  mkStatsPuller (pullAnswer p) (S (pullCalls p))
                (forceClearCacheAnswer p) (clearCacheIfNecessaryAnswer p).

Definition with_puller (p : StatsPuller) (info : PullAtomInfo) : PullAtomInfo :=
  mkPullAtomInfo (additiveFields info) (coolDownNs info) p (pullTimeoutNs info).

(** [StatsPullerManager::PullLocked] *)
Definition PullLocked (tagId : Z) (data : list LogEvent) (st : Manager)
  : bool * list LogEvent * Manager :=
  match kAllPullAtomInfo st !! tagId with
  | Some info =>
      let p := puller info in
      let '(ret, data') := pullAnswer p (pullCalls p) data in
      let st1 := emit (PullerPull tagId)
                   (set_kAllPullAtomInfo
                      (<[tagId := with_puller (called p) info]> (kAllPullAtomInfo st)) st) in
      let st2 := if ret then st1 else emit (NotePullFailed tagId) st1 in
      (ret, data', st2)
  | None => (false, data, st)
  end.

(** [StatsPullerManager::Pull] *)
Definition Pull (tagId : Z) (data : list LogEvent) (st : Manager)
  : bool * list LogEvent * Manager :=
  PullLocked tagId data st.

(** [StatsPullerManager::updateAlarmLocked] *)
Definition updateAlarmLocked (st : Manager) : Manager :=
  if bool_decide (mNextPullTimeNs st = NO_ALARM_UPDATE) then st
  else
    match mStatsCompanionService st with
    | Some _ => emit (SetPullingAlarm (mNextPullTimeNs st `quot` 1000000)) st
    | None => st
    end.

(** The search loops of [RegisterReceiver] and [UnRegisterReceiver]:
    [registered] tells whether the first loop returns early, [erase_first]
    is the list the second loop leaves. *)
Fixpoint registered (rcv : Handle) (receivers : list ReceiverInfo) : bool :=
  match receivers with
  | [] => false
  | it :: rest => if bool_decide (receiver it = rcv) then true else registered rcv rest
  end.

Fixpoint erase_first (rcv : Handle) (receivers : list ReceiverInfo) : list ReceiverInfo :=
  match receivers with
  | [] => []
  | it :: rest => if bool_decide (rcv = receiver it) then rest else it :: erase_first rcv rest
  end.

(** The interval stored by [RegisterReceiver]. *)
Definition roundedIntervalNs (intervalNs : Z) : Z :=
  let rounded :=
    wrap64 (wrap64 (((intervalNs `quot` NS_PER_SEC) `quot` 60) * NS_PER_SEC) * 60) in
  if bool_decide (rounded < wrap64 (60 * NS_PER_SEC)) then wrap64 (60 * NS_PER_SEC)
  else rounded.

(** [StatsPullerManager::RegisterReceiver]. [mReceivers[tagId]] creates the
    entry of [tagId] when there is none. *)
Definition RegisterReceiver (tagId : Z) (rcv : Handle) (nextPullTimeNs intervalNs : Z)
    (st : Manager) : Manager :=
  let receivers := default [] (mReceivers st !! tagId) in
  if registered rcv receivers then st
  else
    let receiverInfo := mkReceiverInfo nextPullTimeNs (roundedIntervalNs intervalNs) rcv in
    let st1 := set_mReceivers (<[tagId := receivers ++ [receiverInfo]]> (mReceivers st)) st in
    if bool_decide (nextPullTimeNs < mNextPullTimeNs st1)
    then updateAlarmLocked (set_mNextPullTimeNs nextPullTimeNs st1)
    else st1.

(** [StatsPullerManager::UnRegisterReceiver] *)
Definition UnRegisterReceiver (tagId : Z) (rcv : Handle) (st : Manager) : Manager :=
  match mReceivers st !! tagId with
  | None => st
  | Some receivers =>
      set_mReceivers (<[tagId := erase_first rcv receivers]> (mReceivers st)) st
  end.

(** *** OnAlarmFired *)

(** A [ReceiverInfo*] into [mReceivers]. *)
Abbreviation ReceiverPtr := (Z * nat)%type (only parsing).

Definition deref (p : ReceiverPtr) (st : Manager) : option ReceiverInfo :=
  mReceivers st !! p.1 ≫= λ receivers, receivers !! p.2.

Definition store (p : ReceiverPtr) (info : ReceiverInfo) (st : Manager) : Manager :=
  set_mReceivers (alter (λ receivers, <[p.2 := info]> receivers) p.1 (mReceivers st)) st.

(** The inner loop of the first phase, over the list of one tag, from
    position [i] on: the receivers that are due are collected, the others
    lower the candidate for the next alarm. *)
Fixpoint scan_receivers (tagId : Z) (elapsedTimeNs : Z) (i : nat)
    (l : list ReceiverInfo) (receivers : list ReceiverPtr) (minNextPullTimeNs : Z)
  : list ReceiverPtr * Z :=
  match l with
  | [] => (receivers, minNextPullTimeNs)
  | receiverInfo :: rest =>
      if bool_decide (nextPullTimeNs receiverInfo ≤ elapsedTimeNs)
      then scan_receivers tagId elapsedTimeNs (S i) rest
             (receivers ++ [(tagId, i)]) minNextPullTimeNs
      else scan_receivers tagId elapsedTimeNs (S i) rest receivers
             (if bool_decide (nextPullTimeNs receiverInfo < minNextPullTimeNs)
              then nextPullTimeNs receiverInfo else minNextPullTimeNs)
  end.

(** One round of the loop over [mReceivers]. *)
Definition collect_due (elapsedTimeNs : Z)
    (acc : list (Z * list ReceiverPtr) * Z) (pair : Z * list ReceiverInfo)
  : list (Z * list ReceiverPtr) * Z :=
  let '(needToPull, minNextPullTimeNs) := acc in
  if bool_decide (length pair.2 ≠ 0%nat) then
    let '(receivers, minNextPullTimeNs') :=
      scan_receivers pair.1 elapsedTimeNs 0 pair.2 [] minNextPullTimeNs in
    if bool_decide (0 < length receivers)%nat
    then (needToPull ++ [(pair.1, receivers)], minNextPullTimeNs')
    else (needToPull, minNextPullTimeNs')
  else acc.

(** The catch-up of one receiver:
    [int numBucketsAhead = (elapsedTimeNs - nextPullTimeNs) / intervalNs;
     nextPullTimeNs += (numBucketsAhead + 1) * intervalNs;] *)
Definition numBucketsAhead (elapsedTimeNs : Z) (info : ReceiverInfo) : Z :=
  wrap32 (wrap64 (elapsedTimeNs - nextPullTimeNs info) `quot` intervalNs info).

Definition reschedule (elapsedTimeNs : Z) (info : ReceiverInfo) : ReceiverInfo :=
  mkReceiverInfo
    (wrap64 (nextPullTimeNs info
             + wrap64 (wrap32 (numBucketsAhead elapsedTimeNs info + 1) * intervalNs info)))
    (intervalNs info) (receiver info).

(** One round of the loop over [pullInfo.second]. A pointer of [needToPull]
    always refers to a record, as the lists are not resized in between; the
    model leaves the state as it is otherwise. *)
Definition dispatch_one (env : Env) (tagId : Z) (data : list LogEvent)
    (pullSuccess : bool) (elapsedTimeNs : Z)
    (acc : Manager * Z) (p : ReceiverPtr) : Manager * Z :=
  let '(st, minNextPullTimeNs) := acc in
  match deref p st with
  | Some receiverInfo =>
      if promote env tagId (receiver receiverInfo) then
        let st1 := emit (OnDataPulled tagId (receiver receiverInfo) data
                           pullSuccess elapsedTimeNs) st in
        let receiverInfo' := reschedule elapsedTimeNs receiverInfo in
        (store p receiverInfo' st1,
         if bool_decide (nextPullTimeNs receiverInfo' < minNextPullTimeNs)
         then nextPullTimeNs receiverInfo' else minNextPullTimeNs)
      else acc
  | None => acc
  end.

(** One round of the loop over [needToPull]. *)
Definition pull_one (env : Env) (elapsedTimeNs : Z)
    (acc : Manager * Z) (pullInfo : Z * list ReceiverPtr) : Manager * Z :=
  let '(st, minNextPullTimeNs) := acc in
  let '(pullSuccess, data, st1) := PullLocked pullInfo.1 [] st in
  let st2 :=
    if pullSuccess
    then emit (NotePullDelay pullInfo.1
                 (wrap64 (getElapsedRealtimeNs env pullInfo.1 - elapsedTimeNs))) st1
    else st1 in
  let data' :=
    (λ event, setLogdWallClockTimestampNs (getWallClockNs env)
                (setElapsedTimestampNs elapsedTimeNs event)) <$> data in
  foldl (dispatch_one env pullInfo.1 data' pullSuccess elapsedTimeNs)
        (st2, minNextPullTimeNs) pullInfo.2.

(** The first phase: [needToPull] and the candidate it leaves. *)
Definition needToPull (elapsedTimeNs : Z) (st : Manager)
  : list (Z * list ReceiverPtr) * Z :=
  foldl (collect_due elapsedTimeNs) ([], NO_ALARM_UPDATE) (entries (mReceivers st)).

(** [StatsPullerManager::OnAlarmFired] *)
Definition OnAlarmFired (env : Env) (elapsedTimeNs : Z) (st : Manager) : Manager :=
  let '(toPull, minNextPullTimeNs) := needToPull elapsedTimeNs st in
  let '(st1, minNextPullTimeNs') :=
    foldl (pull_one env elapsedTimeNs) (st, minNextPullTimeNs) toPull in
  updateAlarmLocked (set_mNextPullTimeNs minNextPullTimeNs' st1).

(** *** The alarm service and the caches *)

(** [StatsPullerManager::SetStatsCompanionService] *)
Definition SetStatsCompanionService (statsCompanionService : option nat)
    (st : Manager) : Manager :=
  let st1 := set_mStatsCompanionService statsCompanionService st in
  let st2 :=
    foldl (λ s pulledAtom,
             emit (PullerSetStatsCompanionService pulledAtom.1 statsCompanionService) s)
          st1 (entries (kAllPullAtomInfo st1)) in
  match mStatsCompanionService st2 with
  | Some _ => updateAlarmLocked st2
  | None => st2
  end.

(** [StatsPullerManager::ForceClearPullerCache] *)
Definition ForceClearPullerCache (st : Manager) : Z * Manager :=
  foldl (λ '(totalCleared, s) pulledAtom,
           (wrap32 (totalCleared + forceClearCacheAnswer (puller pulledAtom.2)),
            emit (PullerForceClearCache pulledAtom.1) s))
        (0, st) (entries (kAllPullAtomInfo st)).

(** [StatsPullerManager::ClearPullerCacheIfNecessary] *)
Definition ClearPullerCacheIfNecessary (timestampNs : Z) (st : Manager) : Z * Manager :=
  foldl (λ '(totalCleared, s) pulledAtom,
           (wrap32 (totalCleared
                    + clearCacheIfNecessaryAnswer (puller pulledAtom.2) timestampNs),
            emit (PullerClearCacheIfNecessary pulledAtom.1 timestampNs) s))
        (0, st) (entries (kAllPullAtomInfo st)).

(** *** Pullers registered at run time *)

Section Callbacks.

(** Declared in StatsPullerManager.h, which is not among the sources: the
    test for the range of vendor atoms, and the values that the members
    [coolDownNs] and [pullTimeoutNs] of a [PullAtomInfo] take when an
    initializer leaves them out. *)
Variable isVendorPulledAtom : Z → bool.
Variable defaultCoolDownNs : Z.
Variable defaultPullTimeoutNs : Z.

(** [StatsPullerManager::PullerForMatcherExists] *)
Definition PullerForMatcherExists (tagId : Z) (st : Manager) : bool :=
  isVendorPulledAtom tagId || bool_decide (is_Some (kAllPullAtomInfo st !! tagId)).

(** [StatsPullerManager::RegisterPullerCallback]; [callbackPuller] is the
    object [new StatsCallbackPullerDeprecated(atomTag, callback)]. *)
Definition RegisterPullerCallback (atomTag : Z) (callbackPuller : StatsPuller)
    (st : Manager) : Manager :=
  if negb (isVendorPulledAtom atomTag) then st
  else
    let st1 := emit (NotePullerCallbackRegistrationChanged atomTag true) st in
    set_kAllPullAtomInfo
      (<[atomTag := mkPullAtomInfo [] defaultCoolDownNs callbackPuller defaultPullTimeoutNs]>
         (kAllPullAtomInfo st1)) st1.

(** [StatsPullerManager::RegisterPullAtomCallback]; [callbackPuller] is the
    object [new StatsCallbackPuller(atomTag, callback, timeoutNs)]. *)
Definition RegisterPullAtomCallback (uid : Z) (atomTag : Z) (coolDownNs timeoutNs : Z)
    (additiveFields : list Z) (callbackPuller : StatsPuller) (st : Manager) : Manager :=
  let st1 := emit (NotePullerCallbackRegistrationChanged atomTag true) st in
  set_kAllPullAtomInfo
    (<[atomTag := mkPullAtomInfo additiveFields coolDownNs callbackPuller timeoutNs]>
       (kAllPullAtomInfo st1)) st1.

(** [StatsPullerManager::UnregisterPullerCallback] *)
Definition UnregisterPullerCallback (atomTag : Z) (st : Manager) : Manager :=
  if negb (isVendorPulledAtom atomTag) then st
  else
    let st1 := emit (NotePullerCallbackRegistrationChanged atomTag false) st in
    set_kAllPullAtomInfo (delete atomTag (kAllPullAtomInfo st1)) st1.

(** [StatsPullerManager::UnregisterPullAtomCallback] *)
Definition UnregisterPullAtomCallback (uid : Z) (atomTag : Z) (st : Manager) : Manager :=
  let st1 := emit (NotePullerCallbackRegistrationChanged atomTag false) st in
  set_kAllPullAtomInfo (delete atomTag (kAllPullAtomInfo st1)) st1.

(** The public operations, and a run of them. *)
Inductive Op :=
  | OpPull (tagId : Z) (data : list LogEvent)
  | OpSetStatsCompanionService (statsCompanionService : option nat)
  | OpRegisterReceiver (tagId : Z) (rcv : Handle) (nextPullTimeNs intervalNs : Z)
  | OpUnRegisterReceiver (tagId : Z) (rcv : Handle)
  | OpOnAlarmFired (env : Env) (elapsedTimeNs : Z)
  | OpForceClearPullerCache
  | OpClearPullerCacheIfNecessary (timestampNs : Z)
  | OpRegisterPullerCallback (atomTag : Z) (callbackPuller : StatsPuller)
  | OpRegisterPullAtomCallback (uid atomTag coolDownNs timeoutNs : Z)
      (additiveFields : list Z) (callbackPuller : StatsPuller)
  | OpUnregisterPullerCallback (atomTag : Z)
  | OpUnregisterPullAtomCallback (uid atomTag : Z).

Definition exec (op : Op) (st : Manager) : Manager :=
  match op with
  | OpPull tagId data => (Pull tagId data st).2
  | OpSetStatsCompanionService s => SetStatsCompanionService s st
  | OpRegisterReceiver tagId rcv next interval =>
      RegisterReceiver tagId rcv next interval st
  | OpUnRegisterReceiver tagId rcv => UnRegisterReceiver tagId rcv st
  | OpOnAlarmFired env elapsedTimeNs => OnAlarmFired env elapsedTimeNs st
  | OpForceClearPullerCache => (ForceClearPullerCache st).2
  | OpClearPullerCacheIfNecessary ts => (ClearPullerCacheIfNecessary ts st).2
  | OpRegisterPullerCallback atomTag p => RegisterPullerCallback atomTag p st
  | OpRegisterPullAtomCallback uid atomTag cd to af p =>
      RegisterPullAtomCallback uid atomTag cd to af p st
  | OpUnregisterPullerCallback atomTag => UnregisterPullerCallback atomTag st
  | OpUnregisterPullAtomCallback uid atomTag => UnregisterPullAtomCallback uid atomTag st
  end.

Definition run (ops : list Op) (st : Manager) : Manager :=
  foldl (λ s op, exec op s) st ops.

End Callbacks.

(** ** Notions the statements use *)

(** The records registered for a tag ([mReceivers[tagId]], read only). *)
Definition receivers_of (tagId : Z) (st : Manager) : list ReceiverInfo :=
  default [] (mReceivers st !! tagId).

(** The pair of a tag and a receiver has a record in the registry. *)
Definition subscribed (tagId : Z) (rcv : Handle) (st : Manager) : Prop :=
  Exists (λ info, receiver info = rcv) (receivers_of tagId st).

Global Instance subscribed_dec tagId rcv st : Decision (subscribed tagId rcv st).
Proof. unfold subscribed. apply _. Defined.

(** The interval a registration asks for, in the words of the specification:
    truncated down to whole minutes, and at least one minute. *)
Definition floor_to_minute (intervalNs : Z) : Z :=
  intervalNs `div` (60 * NS_PER_SEC) * (60 * NS_PER_SEC).

Definition effective_interval (intervalNs : Z) : Z :=
  Z.max (60 * NS_PER_SEC) (floor_to_minute intervalNs).


(** ** What one call of OnAlarmFired does, tag by tag *)

Definition is_due (elapsedTimeNs : Z) (info : ReceiverInfo) : bool :=
  bool_decide (nextPullTimeNs info ≤ elapsedTimeNs).

Definition has_due (elapsedTimeNs : Z) (l : list ReceiverInfo) : bool :=
  existsb (is_due elapsedTimeNs) l.

(** The positions of the due records of a list that starts at position [i]. *)
Fixpoint due_ptrs (tagId : Z) (elapsedTimeNs : Z) (i : nat) (l : list ReceiverInfo)
  : list ReceiverPtr :=
  match l with
  | [] => []
  | info :: rest =>
      if is_due elapsedTimeNs info
      then (tagId, i) :: due_ptrs tagId elapsedTimeNs (S i) rest
      else due_ptrs tagId elapsedTimeNs (S i) rest
  end.

(** The next pull times of the records that are not due. *)
Definition not_due_times (elapsedTimeNs : Z) (l : list ReceiverInfo) : list Z :=
  nextPullTimeNs <$> filter (λ info, is_due elapsedTimeNs info = false) l.

(** A record is served when it is due and its receiver can be promoted. *)
Definition served (env : Env) (elapsedTimeNs : Z) (tagId : Z) (info : ReceiverInfo) : bool :=
  is_due elapsedTimeNs info && promote env tagId (receiver info).

Definition catch_up (env : Env) (elapsedTimeNs : Z) (tagId : Z) (info : ReceiverInfo)
  : ReceiverInfo :=
  if served env elapsedTimeNs tagId info then reschedule elapsedTimeNs info else info.

(** The next pull times of the records that were served. *)
Definition served_times (env : Env) (elapsedTimeNs : Z) (tagId : Z)
    (l : list ReceiverInfo) : list Z :=
  (λ info, nextPullTimeNs (reschedule elapsedTimeNs info))
    <$> filter (λ info, served env elapsedTimeNs tagId info = true) l.

(** The answer of the puller of a tag to a pull into an empty buffer. *)
Definition pull_answer (info : option PullAtomInfo) : bool * list LogEvent :=
  match info with
  | Some info => pullAnswer (puller info) (pullCalls (puller info)) []
  | None => (false, [])
  end.

Definition stamp (env : Env) (elapsedTimeNs : Z) (event : LogEvent) : LogEvent :=
  setLogdWallClockTimestampNs (getWallClockNs env)
    (setElapsedTimestampNs elapsedTimeNs event).

(** The data handed to the receivers of a tag. *)
Definition delivered_data (env : Env) (elapsedTimeNs : Z) (info : option PullAtomInfo)
  : list LogEvent :=
  stamp env elapsedTimeNs <$> (pull_answer info).2.

Definition pull_effects (tagId : Z) (info : option PullAtomInfo) : list Effect :=
  match info with
  | Some _ =>
      PullerPull tagId :: (if (pull_answer info).1 then [] else [NotePullFailed tagId])
  | None => []
  end.

Definition delay_effects (env : Env) (elapsedTimeNs : Z) (tagId : Z)
    (info : option PullAtomInfo) : list Effect :=
  if (pull_answer info).1
  then [NotePullDelay tagId (wrap64 (getElapsedRealtimeNs env tagId - elapsedTimeNs))]
  else [].

Definition delivery (env : Env) (elapsedTimeNs : Z) (tagId : Z)
    (info : option PullAtomInfo) (r : ReceiverInfo) : option Effect :=
  if promote env tagId (receiver r)
  then Some (OnDataPulled tagId (receiver r) (delivered_data env elapsedTimeNs info)
               (pull_answer info).1 elapsedTimeNs)
  else None.

(** The calls made for one tag with the records [l]. *)
Definition tag_effects (env : Env) (elapsedTimeNs : Z) (tagId : Z)
    (info : option PullAtomInfo) (l : list ReceiverInfo) : list Effect :=
  if has_due elapsedTimeNs l then
    pull_effects tagId info ++ delay_effects env elapsedTimeNs tagId info
    ++ omap (λ r, if is_due elapsedTimeNs r
                  then delivery env elapsedTimeNs tagId info r else None) l
  else [].

(** The calls made by the two loops of OnAlarmFired. *)
Definition dispatch_effects (env : Env) (elapsedTimeNs : Z) (st : Manager) : list Effect :=
  entries (mReceivers st) ≫= λ pair,
    tag_effects env elapsedTimeNs pair.1 (kAllPullAtomInfo st !! pair.1) pair.2.

(** The candidate for the next alarm that the two loops leave. *)
Definition next_deadline (env : Env) (elapsedTimeNs : Z) (st : Manager) : Z :=
  foldl Z.min
    (foldl Z.min NO_ALARM_UPDATE
       (entries (mReceivers st) ≫= λ pair, not_due_times elapsedTimeNs pair.2))
    (entries (mReceivers st) ≫= λ pair, served_times env elapsedTimeNs pair.1 pair.2).

(** The call that updateAlarmLocked makes for a deadline. *)
Definition alarm_effects (deadline : Z) (service : option nat) : list Effect :=
  if bool_decide (deadline = NO_ALARM_UPDATE) then []
  else match service with
       | Some _ => [SetPullingAlarm (deadline `quot` 1000000)]
       | None => []
       end.

(** The calls made on the way from the state [st] to the state [st']. *)
Definition emitted (st st' : Manager) : list Effect :=
  drop (length (effects st)) (effects st').

Global Instance LogEvent_eq_dec : EqDecision LogEvent.
Proof. solve_decision. Defined.

Global Instance Effect_eq_dec : EqDecision Effect.
Proof. solve_decision. Defined.

(** How often the puller of a tag is called in a list of calls. *)
Definition pulls_of (tagId : Z) (evs : list Effect) : nat :=
  length (filter (λ e, e = PullerPull tagId) evs).

(** The tag a call was made for. *)
Definition effect_tag (e : Effect) : option Z :=
  match e with
  | PullerPull tagId | NotePullFailed tagId | NotePullDelay tagId _
  | NotePullerCallbackRegistrationChanged tagId _
  | OnDataPulled tagId _ _ _ _ | PullerSetStatsCompanionService tagId _
  | PullerForceClearCache tagId | PullerClearCacheIfNecessary tagId _ => Some tagId
  | SetPullingAlarm _ => None
  end.

(** ** The registry as a whole *)

(** All the records of the registry, each with its tag. *)
Definition all_receivers (st : Manager) : list (Z * ReceiverInfo) :=
  entries (mReceivers st) ≫= λ pair, (λ info, (pair.1, info)) <$> pair.2.

(** The minimum of a list of times, or [d] when the list is empty. *)
Definition minimum_or (d : Z) (l : list Z) : Z :=
  match l with
  | [] => d
  | x :: rest => foldl Z.min x rest
  end.

(** mNextPullTimeNs is the minimum of the next pull times of all records,
    or NO_ALARM_UPDATE when there is no record. *)
Definition deadline_is_minimum (st : Manager) : Prop :=
  mNextPullTimeNs st
  = minimum_or NO_ALARM_UPDATE ((λ kr, nextPullTimeNs kr.2) <$> all_receivers st).

(** mNextPullTimeNs is not later than the next pull time of any record. *)
Definition deadline_is_lower_bound (st : Manager) : Prop :=
  ∀ kr, kr ∈ all_receivers st → mNextPullTimeNs st ≤ nextPullTimeNs kr.2.

(** The records that the deadline computed by OnAlarmFired accounts for:
    all but the due ones whose receiver cannot be promoted. *)
Definition accounted (env : Env) (elapsedTimeNs : Z) (kr : Z * ReceiverInfo) : bool :=
  negb (is_due elapsedTimeNs kr.2) || promote env kr.1 (receiver kr.2).

(** The next pull times are values of [int64_t]. *)
Definition times_in_range (st : Manager) : Prop :=
  ∀ kr, kr ∈ all_receivers st → int64_range (nextPullTimeNs kr.2).

(** At most one record for a pair of a tag and a receiver. *)
Definition unique_receivers (st : Manager) : Prop :=
  ∀ tagId, NoDup (receiver <$> receivers_of tagId st).

(** The records of a receiver for a tag. *)
Definition records_of (tagId : Z) (rcv : Handle) (st : Manager) : list ReceiverInfo :=
  filter (λ info, receiver info = rcv) (receivers_of tagId st).

(** Every stored interval is at least one minute. *)
Definition intervals_rounded (st : Manager) : Prop :=
  ∀ kr, kr ∈ all_receivers st → 60 * NS_PER_SEC ≤ intervalNs kr.2.

(** An operation other than UnRegisterReceiver. *)
Definition is_unregister (op : Op) : bool :=
  match op with
  | OpUnRegisterReceiver _ _ => true
  | _ => false
  end.

(** An operation under which mNextPullTimeNs stays the minimum: the time of
    a registration is a value of [int64_t], every due receiver can be
    promoted when an alarm fires, and nothing is unregistered. *)
Definition keeps_minimum (op : Op) (st : Manager) : Prop :=
  match op with
  | OpRegisterReceiver _ _ nextPullTimeNs _ => int64_range nextPullTimeNs
  | OpUnRegisterReceiver _ _ => False
  | OpOnAlarmFired env elapsedTimeNs =>
      ∀ kr, kr ∈ all_receivers st → accounted env elapsedTimeNs kr = true
  | _ => True
  end.

Section Runs.

Variable isVendorPulledAtom : Z → bool.
Variable defaultCoolDownNs : Z.
Variable defaultPullTimeoutNs : Z.

Fixpoint run_keeps_minimum (ops : list Op) (st : Manager) : Prop :=
  match ops with
  | [] => True
  | op :: rest =>
      keeps_minimum op st
      ∧ run_keeps_minimum rest
          (exec isVendorPulledAtom defaultCoolDownNs defaultPullTimeoutNs op st)
  end.

End Runs.

(** ** Examples *)

(** A range of vendor atoms, for the examples. *)
Definition sample_isVendorPulledAtom (atomTag : Z) : bool :=
  bool_decide (150000 ≤ atomTag) && bool_decide (atomTag < 200000).

Definition sample_puller : StatsPuller :=
  mkStatsPuller (λ _ data, (true, data ++ [mkLogEvent 1 0 0])) 0 0 (λ _, 0).

Definition sample_table : gmap Z PullAtomInfo :=
  {[ 10005 := mkPullAtomInfo [] 0 sample_puller 0 ]}.

Definition sample_env : Env := mkEnv 5000 (λ _, 185 * NS_PER_SEC + 30) (λ _ _, true).

(** One receiver for the tag 10005, due at 0, every minute. *)
Definition sample_subscribed : Manager :=
  RegisterReceiver 10005 1%nat 0 (60 * NS_PER_SEC) (initial sample_table).

(** Two receivers for the tag 10005, both due at 50; the receiver 9 is gone
    when the alarm fires. *)
Definition sample_two : Manager :=
  RegisterReceiver 10005 4%nat 50 (130 * NS_PER_SEC)
    (RegisterReceiver 10005 9%nat 50 (130 * NS_PER_SEC) (initial sample_table)).

Definition sample_env_gone : Env :=
  mkEnv 5000 (λ _, 130) (λ _ rcv, negb (bool_decide (rcv = 9%nat))).

(** A puller that fails, and a receiver of its tag due at 50. *)
Definition failing_puller : StatsPuller :=
  mkStatsPuller (λ _ data, (false, data)) 0 0 (λ _, 0).

Definition sample_failing : Manager :=
  RegisterReceiver 10005 1%nat 50 (60 * NS_PER_SEC)
    (initial {[ 10005 := mkPullAtomInfo [] 0 failing_puller 0 ]}).

(** ** Further notions *)

(** The sum of a list of counts. *)
Definition sum_counts (l : list Z) : Z := foldr Z.add 0 l.

(** A call of setPullingAlarm. *)
Definition is_alarm (e : Effect) : bool :=
  match e with
  | SetPullingAlarm _ => true
  | _ => false
  end.

(** SetStatsCompanionService with a service that is there. *)
Definition is_connect (op : Op) : bool :=
  match op with
  | OpSetStatsCompanionService (Some _) => true
  | _ => false
  end.

(** The receivers that a list of calls delivers data to for a tag, in the
    order of the calls. *)
Definition deliveries_of (tagId : Z) (evs : list Effect) : list Handle :=
  omap (λ e, match e with
             | OnDataPulled k rcv _ _ _ =>
                 if bool_decide (k = tagId) then Some rcv else None
             | _ => None
             end) evs.


(** Two pullers with caches: clearing by force frees 3 and 4 entries,
    clearing by time frees the entries older than the time given. *)
Definition caching_puller (held : Z) : StatsPuller :=
  mkStatsPuller (λ _ data, (true, data)) 0 held (λ timestampNs, Z.min held timestampNs).

Definition sample_caches : Manager :=
  initial {[ 10005 := mkPullAtomInfo [] 0 (caching_puller 3) 0;
             10002 := mkPullAtomInfo [] 0 (caching_puller 4) 0 ]}.

(** A receiver for the tag 10005 whose first pull time is ten nanoseconds
    before the largest [int64_t]. *)
Definition sample_late : Manager :=
  RegisterReceiver 10005 1%nat (INT64_MAX - 10) (60 * NS_PER_SEC) (initial sample_table).
(** ** Machine integers: facts *)

Lemma wrap64_id z : int64_range z → wrap64 z = z.
Proof.
  unfold int64_range, INT64_MIN, INT64_MAX, wrap64. intros Hz.
  rewrite Z.mod_small; lia.
Qed.

Lemma wrap32_id z : -2147483648 ≤ z ≤ 2147483647 → wrap32 z = z.
Proof. unfold wrap32. intros Hz. rewrite Z.mod_small; lia. Qed.

Lemma wrap64_range z : int64_range (wrap64 z).
Proof.
  unfold int64_range, INT64_MIN, INT64_MAX, wrap64.
  pose proof (Z.mod_pos_bound (z + 2 ^ 63) (2 ^ 64)). lia.
Qed.

(** ** RegisterReceiver *)

Lemma registered_spec rcv l :
  registered rcv l = true ↔ Exists (λ info, receiver info = rcv) l.
Proof.
  induction l as [|it rest IH]; simpl.
  - rewrite Exists_nil. done.
  - rewrite Exists_cons. case_bool_decide as Hit; [tauto |].
    rewrite IH. tauto.
Qed.

Lemma registered_subscribed tagId rcv st :
  registered rcv (receivers_of tagId st) = true ↔ subscribed tagId rcv st.
Proof. apply registered_spec. Qed.

Lemma not_registered tagId rcv st :
  ¬ subscribed tagId rcv st → registered rcv (receivers_of tagId st) = false.
Proof.
  intros Hn. destruct (registered _ _) eqn:E; [|done].
  by apply registered_subscribed in E.
Qed.

Lemma roundedIntervalNs_effective intervalNs :
  int64_range intervalNs → roundedIntervalNs intervalNs = effective_interval intervalNs.
Proof.
  unfold int64_range, INT64_MIN, INT64_MAX, roundedIntervalNs, effective_interval,
    floor_to_minute, NS_PER_SEC.
  intros Hr.
  rewrite (wrap64_id (60 * 1000000000)) by (unfold int64_range, INT64_MIN, INT64_MAX; lia).
  destruct (decide (0 ≤ intervalNs)) as [Hpos | Hneg].
  - rewrite (Z.quot_div_nonneg intervalNs 1000000000) by lia.
    rewrite (Z.quot_div_nonneg _ 60) by (try apply Z.div_pos; lia).
    rewrite Z.div_div by lia.
    change (1000000000 * 60) with 60000000000.
    change (60 * 1000000000) with 60000000000.
    pose proof (Z.mul_div_le intervalNs 60000000000 ltac:(lia)) as Hle.
    pose proof (Z.div_pos intervalNs 60000000000 Hpos ltac:(lia)) as Hq.
    set (q := intervalNs `div` 60000000000) in *.
    rewrite (wrap64_id (q * 1000000000)) by (unfold int64_range, INT64_MIN, INT64_MAX; lia).
    rewrite (wrap64_id (q * 1000000000 * 60)) by (unfold int64_range, INT64_MIN, INT64_MAX; lia).
    clearbody q. case_bool_decide; lia.
  - assert (Hq : - INT64_MAX - 1 ≤ (intervalNs `quot` 1000000000) `quot` 60 ≤ 0
                 ∧ intervalNs ≤ (intervalNs `quot` 1000000000) `quot` 60 * 60000000000).
    { assert (Hn : ∃ n, intervalNs = - n ∧ 0 < n) by (exists (- intervalNs); lia).
      destruct Hn as (n & -> & Hn).
      rewrite (Z.quot_opp_l n 1000000000) by lia.
      rewrite (Z.quot_opp_l _ 60) by lia.
      rewrite (Z.quot_div_nonneg n 1000000000) by lia.
      rewrite (Z.quot_div_nonneg _ 60) by (try apply Z.div_pos; lia).
      rewrite Z.div_div by lia.
      change (1000000000 * 60) with 60000000000.
      pose proof (Z.mul_div_le n 60000000000 ltac:(lia)).
      pose proof (Z.div_pos n 60000000000 ltac:(lia) ltac:(lia)).
      unfold INT64_MAX. lia. }
    set (q := (intervalNs `quot` 1000000000) `quot` 60) in *. unfold INT64_MAX in Hq.
    rewrite (wrap64_id (q * 1000000000)) by (unfold int64_range, INT64_MIN, INT64_MAX; lia).
    rewrite (wrap64_id (q * 1000000000 * 60)) by (unfold int64_range, INT64_MIN, INT64_MAX; lia).
    pose proof (Z.div_lt_upper_bound intervalNs 60000000000 1 ltac:(lia) ltac:(lia)).
    clearbody q. change (60 * 1000000000) with 60000000000.
    case_bool_decide; lia.
Qed.

Lemma mReceivers_updateAlarmLocked st :
  mReceivers (updateAlarmLocked st) = mReceivers st.
Proof.
  unfold updateAlarmLocked. case_bool_decide; [done |].
  by destruct (mStatsCompanionService st).
Qed.

Lemma mNextPullTimeNs_updateAlarmLocked st :
  mNextPullTimeNs (updateAlarmLocked st) = mNextPullTimeNs st.
Proof.
  unfold updateAlarmLocked. case_bool_decide; [done |].
  by destruct (mStatsCompanionService st).
Qed.

Lemma kAllPullAtomInfo_updateAlarmLocked st :
  kAllPullAtomInfo (updateAlarmLocked st) = kAllPullAtomInfo st.
Proof.
  unfold updateAlarmLocked. case_bool_decide; [done |].
  by destruct (mStatsCompanionService st).
Qed.

(** What a registration of a new pair leaves in the registry and in the
    deadline. *)
Lemma RegisterReceiver_new tagId rcv next interval st :
  ¬ subscribed tagId rcv st →
  mReceivers (RegisterReceiver tagId rcv next interval st)
    = <[tagId := receivers_of tagId st
                  ++ [mkReceiverInfo next (roundedIntervalNs interval) rcv]]> (mReceivers st)
  ∧ mNextPullTimeNs (RegisterReceiver tagId rcv next interval st)
    = Z.min (mNextPullTimeNs st) next.
Proof.
  intros Hnew. unfold RegisterReceiver. fold (receivers_of tagId st).
  rewrite (not_registered _ _ _ Hnew). simpl.
  case_bool_decide.
  - rewrite mReceivers_updateAlarmLocked, mNextPullTimeNs_updateAlarmLocked. simpl.
    split; [done | lia].
  - simpl. split; [done | lia].
Qed.

Lemma RegisterReceiver_known tagId rcv next interval st :
  subscribed tagId rcv st → RegisterReceiver tagId rcv next interval st = st.
Proof.
  intros Hs. apply registered_subscribed in Hs.
  unfold RegisterReceiver. fold (receivers_of tagId st). by rewrite Hs.
Qed.

(** ** Registration: interval and first due time *)

(** C4: a call of RegisterReceiver for a (tag, receiver) pair that has no
    record yet appends one record for the pair, and the interval stored in
    it is the larger of 60 seconds and the requested interval truncated down
    to a whole multiple of 60 seconds; a request of 10 seconds is stored as
    60 seconds. *)
Theorem register_stores_effective_interval tagId rcv next interval st :
  int64_range interval →
  ¬ subscribed tagId rcv st →
  ∃ info,
    receivers_of tagId (RegisterReceiver tagId rcv next interval st)
      = receivers_of tagId st ++ [info]
    ∧ receiver info = rcv
    ∧ intervalNs info = effective_interval interval
    ∧ (interval = 10 * NS_PER_SEC → intervalNs info = 60 * NS_PER_SEC).
Proof.
  intros Hrange Hnew.
  destruct (RegisterReceiver_new tagId rcv next interval st Hnew) as [Hm _].
  exists (mkReceiverInfo next (roundedIntervalNs interval) rcv).
  unfold receivers_of at 1. rewrite Hm, lookup_insert_eq. simpl.
  rewrite (roundedIntervalNs_effective _ Hrange).
  repeat split. intros ->. reflexivity.
Qed.

Lemma register_stores_effective_interval_witness :
  ∃ info,
    receivers_of 7 (RegisterReceiver 7 1%nat 100 (10 * NS_PER_SEC) (initial ∅))
      = receivers_of 7 (initial ∅) ++ [info]
    ∧ receiver info = 1%nat
    ∧ intervalNs info = effective_interval (10 * NS_PER_SEC)
    ∧ (10 * NS_PER_SEC = 10 * NS_PER_SEC → intervalNs info = 60 * NS_PER_SEC).
Proof.
  apply (register_stores_effective_interval 7 1%nat 100 (10 * NS_PER_SEC) (initial ∅)).
  - unfold int64_range, INT64_MIN, INT64_MAX, NS_PER_SEC. lia.
  - apply (bool_decide_eq_false_1 (subscribed 7 1%nat (initial ∅))). reflexivity.
Defined.

(** C10: a call of RegisterReceiver for a (tag, receiver) pair that has no
    record yet stores the argument nextPullTimeNs in the record as it is
    (only the interval is rounded), and mNextPullTimeNs becomes the smaller
    of its old value and that argument: when the argument is smaller, the
    deadline is the argument itself, however close it is. *)
Theorem register_keeps_first_due_time tagId rcv next interval st :
  ¬ subscribed tagId rcv st →
  (∃ info,
     receivers_of tagId (RegisterReceiver tagId rcv next interval st)
       = receivers_of tagId st ++ [info]
     ∧ receiver info = rcv
     ∧ nextPullTimeNs info = next)
  ∧ mNextPullTimeNs (RegisterReceiver tagId rcv next interval st)
    = Z.min (mNextPullTimeNs st) next
  ∧ (next < mNextPullTimeNs st →
     mNextPullTimeNs (RegisterReceiver tagId rcv next interval st) = next).
Proof.
  intros Hnew.
  destruct (RegisterReceiver_new tagId rcv next interval st Hnew) as [Hm Hd].
  split; [| split].
  - exists (mkReceiverInfo next (roundedIntervalNs interval) rcv).
    unfold receivers_of at 1. rewrite Hm, lookup_insert_eq. done.
  - exact Hd.
  - intros Hlt. rewrite Hd. lia.
Qed.

(** A first due time of 1 second, with an interval of ten minutes: the
    record and the deadline are at 1 second. *)
Lemma register_keeps_first_due_time_witness :
  (∃ info,
     receivers_of 7 (RegisterReceiver 7 1%nat NS_PER_SEC (600 * NS_PER_SEC) (initial ∅))
       = receivers_of 7 (initial ∅) ++ [info]
     ∧ receiver info = 1%nat
     ∧ nextPullTimeNs info = NS_PER_SEC)
  ∧ mNextPullTimeNs (RegisterReceiver 7 1%nat NS_PER_SEC (600 * NS_PER_SEC) (initial ∅))
    = Z.min (mNextPullTimeNs (initial ∅)) NS_PER_SEC
  ∧ (NS_PER_SEC < mNextPullTimeNs (initial ∅) →
     mNextPullTimeNs (RegisterReceiver 7 1%nat NS_PER_SEC (600 * NS_PER_SEC) (initial ∅))
     = NS_PER_SEC).
Proof.
  apply (register_keeps_first_due_time 7 1%nat NS_PER_SEC (600 * NS_PER_SEC) (initial ∅)).
  apply (bool_decide_eq_false_1 (subscribed 7 1%nat (initial ∅))). reflexivity.
Defined.

(** ** Pull *)

(** C6: without a PullAtomInfo for the tag, PullLocked (and Pull) returns
    false and does nothing at all: no puller is called, nothing is reported,
    the buffer is as it was. With one, the puller of the tag is called once,
    its answer and its buffer are returned, and notePullFailed is reported
    exactly when the answer is false. *)
Theorem pull_locked_outcome tagId data st :
  Pull tagId data st = PullLocked tagId data st
  ∧ (kAllPullAtomInfo st !! tagId = None →
     PullLocked tagId data st = (false, data, st))
  ∧ (∀ info, kAllPullAtomInfo st !! tagId = Some info →
     ∃ st',
       PullLocked tagId data st
         = (pullAnswer (puller info) (pullCalls (puller info)) data, st')
       ∧ effects st'
         = effects st ++ PullerPull tagId ::
             (if (pullAnswer (puller info) (pullCalls (puller info)) data).1
              then [] else [NotePullFailed tagId])
       ∧ kAllPullAtomInfo st'
         = <[tagId := with_puller (called (puller info)) info]> (kAllPullAtomInfo st)
       ∧ pullCalls (called (puller info)) = S (pullCalls (puller info))
       ∧ mReceivers st' = mReceivers st
       ∧ mNextPullTimeNs st' = mNextPullTimeNs st
       ∧ mStatsCompanionService st' = mStatsCompanionService st).
Proof.
  split; [done |]. split.
  - intros Hnone. unfold PullLocked. by rewrite Hnone.
  - intros info Hinfo. unfold PullLocked. rewrite Hinfo.
    destruct (pullAnswer (puller info) (pullCalls (puller info)) data) as [ret out].
    destruct ret; eexists; (split; [reflexivity |]); simpl;
      rewrite <- ?app_assoc; done.
Qed.

Lemma pull_locked_outcome_witness :
  PullLocked 3 [mkLogEvent 1 0 0] (initial ∅) = (false, [mkLogEvent 1 0 0], initial ∅).
Proof.
  apply (proj1 (proj2 (pull_locked_outcome 3 [mkLogEvent 1 0 0] (initial ∅)))).
  reflexivity.
Defined.

(** ** Pullers registered at run time *)

(** C8, as the code has it: RegisterPullerCallback and
    UnregisterPullerCallback do nothing at all for a tag outside the vendor
    range; for a tag of the vendor range UnregisterPullerCallback removes
    the PullAtomInfo of the tag; UnregisterPullAtomCallback removes the
    PullAtomInfo of any tag, vendor or not. *)
Theorem vendor_gate_of_puller_callbacks
    (isVendorPulledAtom : Z → bool) (defaultCoolDownNs defaultPullTimeoutNs : Z)
    atomTag st :
  (isVendorPulledAtom atomTag = false →
     (∀ callbackPuller,
        RegisterPullerCallback isVendorPulledAtom defaultCoolDownNs defaultPullTimeoutNs
          atomTag callbackPuller st = st)
     ∧ UnregisterPullerCallback isVendorPulledAtom atomTag st = st)
  ∧ (isVendorPulledAtom atomTag = true →
     kAllPullAtomInfo (UnregisterPullerCallback isVendorPulledAtom atomTag st)
       = delete atomTag (kAllPullAtomInfo st))
  ∧ (∀ uid,
     kAllPullAtomInfo (UnregisterPullAtomCallback uid atomTag st)
       = delete atomTag (kAllPullAtomInfo st)).
Proof.
  split; [| split].
  - intros Hv. unfold RegisterPullerCallback, UnregisterPullerCallback.
    rewrite Hv. done.
  - intros Hv. unfold UnregisterPullerCallback. rewrite Hv. done.
  - done.
Qed.

Lemma vendor_gate_of_puller_callbacks_witness :
  (∀ callbackPuller,
     RegisterPullerCallback sample_isVendorPulledAtom 0 0 10005 callbackPuller
       (initial sample_table) = initial sample_table)
  ∧ UnregisterPullerCallback sample_isVendorPulledAtom 10005 (initial sample_table)
    = initial sample_table.
Proof.
  apply (proj1 (vendor_gate_of_puller_callbacks sample_isVendorPulledAtom 0 0 10005
                  (initial sample_table))).
  reflexivity.
Defined.

(** C8, as stated, fails for UnregisterPullAtomCallback: the tag 10005 is
    outside the vendor range and has a PullAtomInfo, and the call removes
    it. *)
Lemma unregister_pull_atom_callback_removes_platform_puller :
  sample_isVendorPulledAtom 10005 = false
  ∧ is_Some (kAllPullAtomInfo (initial sample_table) !! 10005)
  ∧ kAllPullAtomInfo (UnregisterPullAtomCallback 0 10005 (initial sample_table)) !! 10005
    = None.
Proof. split; [reflexivity |]. split; [by eexists | reflexivity]. Qed.

(** ** The first loop of OnAlarmFired *)

Lemma min_step m x : (if bool_decide (x < m) then x else m) = Z.min m x.
Proof. case_bool_decide; lia. Qed.

Lemma scan_receivers_spec tagId t l : ∀ i acc m,
  scan_receivers tagId t i l acc m
  = (acc ++ due_ptrs tagId t i l, foldl Z.min m (not_due_times t l)).
Proof.
  induction l as [|info rest IH]; intros i acc m; simpl.
  - by rewrite app_nil_r.
  - change (bool_decide (nextPullTimeNs info ≤ t)) with (is_due t info).
    unfold not_due_times. rewrite filter_cons.
    destruct (is_due t info) eqn:Hdue.
    + rewrite IH, <- app_assoc. done.
    + rewrite IH, min_step. done.
Qed.

Lemma due_ptrs_nil tagId t i l : due_ptrs tagId t i l = [] ↔ has_due t l = false.
Proof.
  revert i. induction l as [|info rest IH]; intros i; simpl; [done |].
  destruct (is_due t info); simpl; [split; discriminate | apply IH].
Qed.

Lemma collect_due_spec t np m pair :
  collect_due t (np, m) pair
  = (np ++ (if has_due t pair.2 then [(pair.1, due_ptrs pair.1 t 0 pair.2)] else []),
     foldl Z.min m (not_due_times t pair.2)).
Proof.
  destruct pair as [k l]. unfold collect_due. simpl.
  case_bool_decide as Hlen.
  - rewrite scan_receivers_spec. simpl.
    destruct (has_due t l) eqn:Hd.
    + case_bool_decide as Hpos; [done |].
      assert (due_ptrs k t 0 l = []) as Hnil by (destruct (due_ptrs k t 0 l); simpl in *; [done | lia]).
      apply due_ptrs_nil in Hnil. congruence.
    + apply (due_ptrs_nil k t 0%nat) in Hd. rewrite Hd. simpl.
      by rewrite app_nil_r.
  - assert (l = []) as -> by (destruct l; simpl in *; [done | lia]).
    simpl. by rewrite app_nil_r.
Qed.

(** The due tags of a list of entries, with the pointers to their due
    records. *)
Lemma fold_collect_due_spec t E : ∀ np m,
  foldl (collect_due t) (np, m) E
  = (np ++ (E ≫= λ pair, if has_due t pair.2
                          then [(pair.1, due_ptrs pair.1 t 0 pair.2)] else []),
     foldl Z.min m (E ≫= λ pair, not_due_times t pair.2)).
Proof.
  induction E as [|pair E IH]; intros np m.
  - simpl. by rewrite app_nil_r.
  - change (foldl (collect_due t) (np, m) (pair :: E))
      with (foldl (collect_due t) (collect_due t (np, m) pair) E).
    rewrite collect_due_spec, IH, !bind_cons, <- app_assoc, foldl_app. done.
Qed.

Lemma elem_of_entries {A} (m : gmap Z A) k x : (k, x) ∈ entries m ↔ m !! k = Some x.
Proof.
  unfold entries. rewrite merge_sort_Permutation. apply elem_of_map_to_list.
Qed.

Lemma NoDup_fst_entries {A} (m : gmap Z A) : NoDup (entries m).*1.
Proof.
  unfold entries. rewrite merge_sort_Permutation. apply NoDup_fst_map_to_list.
Qed.

(** ** The second loop of OnAlarmFired *)

Lemma catch_up_receiver env t k info : receiver (catch_up env t k info) = receiver info.
Proof. unfold catch_up. by destruct (served env t k info). Qed.

Lemma catch_up_intervalNs env t k info : intervalNs (catch_up env t k info) = intervalNs info.
Proof. unfold catch_up. by destruct (served env t k info). Qed.

Lemma catch_up_no_due env t k l : has_due t l = false → catch_up env t k <$> l = l.
Proof.
  induction l as [|info rest IH]; [done |].
  simpl has_due. intros [Hi Hr]%orb_false_elim.
  rewrite fmap_cons, IH by done.
  unfold catch_up, served. by rewrite Hi.
Qed.

Lemma served_times_no_due env t k l : has_due t l = false → served_times env t k l = [].
Proof.
  induction l as [|info rest IH]; [done |].
  simpl has_due. intros [Hi Hr]%orb_false_elim.
  unfold served_times in *.
  rewrite filter_cons_False by (unfold served; rewrite Hi; done).
  by apply IH.
Qed.

Lemma insert_alter_same {A} (f : A → A) (m : gmap Z A) k x :
  <[k := x]> (alter f k m) = <[k := x]> m.
Proof.
  apply map_eq. intros i. destruct (decide (i = k)) as [-> | Hne].
  - by rewrite !lookup_insert_eq.
  - rewrite !lookup_insert_ne by done. by rewrite lookup_alter_ne.
Qed.

(** The loop over the pointers to the due records of one tag: the records
    of the list from position [length pre] on. *)
Lemma dispatch_due_spec env k data succ t : ∀ l pre st m,
  mReceivers st !! k = Some (pre ++ l) →
  foldl (dispatch_one env k data succ t) (st, m) (due_ptrs k t (length pre) l)
  = (mkManager (kAllPullAtomInfo st)
       (<[k := pre ++ (catch_up env t k <$> l)]> (mReceivers st))
       (mNextPullTimeNs st) (mStatsCompanionService st)
       (effects st
        ++ omap (λ r, if is_due t r
                      then (if promote env k (receiver r)
                            then Some (OnDataPulled k (receiver r) data succ t)
                            else None)
                      else None) l),
     foldl Z.min m (served_times env t k l)).
Proof.
  induction l as [|r l IH]; intros pre st m Hl.
  - simpl. rewrite !app_nil_r. rewrite insert_id by (by rewrite app_nil_r in Hl).
    by destruct st.
  - assert (Hpre : S (length pre) = length (pre ++ [r])).
    { rewrite length_app. simpl. lia. }
    assert (Hl' : mReceivers st !! k = Some ((pre ++ [r]) ++ l)).
    { by rewrite <- app_assoc. }
    simpl due_ptrs. unfold served_times. rewrite fmap_cons.
    destruct (is_due t r) eqn:Hdue.
    + cbn [foldl]. unfold dispatch_one at 2. unfold deref. cbn [fst snd].
      rewrite Hl. cbn [mbind option_bind].
      rewrite lookup_app_r by lia. rewrite Nat.sub_diag. cbn [lookup list_lookup].
      destruct (promote env k (receiver r)) eqn:Hp.
      * assert (Hs : served env t k r = true) by (unfold served; by rewrite Hdue, Hp).
        rewrite filter_cons_True by done. unfold catch_up at 1. rewrite Hs.
        rewrite min_step. rewrite Hpre.
        set (r' := reschedule t r).
        set (st1 := store (k, length pre) r' (emit (OnDataPulled k (receiver r) data succ t) st)).
        assert (Hl1 : mReceivers st1 !! k = Some ((pre ++ [r']) ++ l)).
        { unfold st1, store. simpl. rewrite lookup_alter_eq, Hl. simpl.
          f_equal. rewrite <- app_assoc. simpl.
          replace (length pre) with (length pre + 0)%nat at 1 by lia.
          by rewrite insert_app_r. }
        replace (length (pre ++ [r])) with (length (pre ++ [r'])) by (by rewrite !length_app).
        rewrite (IH (pre ++ [r']) st1 _ Hl1).
        unfold st1, store. simpl. rewrite insert_alter_same, Hdue, Hp.
        rewrite <- !app_assoc. done.
      * assert (Hs : served env t k r = false) by (unfold served; by rewrite Hdue, Hp).
        rewrite filter_cons_False by (by rewrite Hs). unfold catch_up at 1. rewrite Hs.
        rewrite Hpre. rewrite (IH (pre ++ [r]) st m Hl'). simpl. rewrite Hdue, Hp.
        rewrite <- !app_assoc. done.
    + assert (Hs : served env t k r = false) by (unfold served; by rewrite Hdue).
      rewrite filter_cons_False by (by rewrite Hs). unfold catch_up at 1. rewrite Hs.
      rewrite Hpre. rewrite (IH (pre ++ [r]) st m Hl'). simpl. rewrite Hdue.
      rewrite <- !app_assoc. done.
Qed.

(** One round of the loop over [needToPull], for a tag with the records
    [l]. *)
Lemma pull_one_spec env t st m k l :
  mReceivers st !! k = Some l →
  pull_one env t (st, m) (k, due_ptrs k t 0 l)
  = (mkManager
       (match kAllPullAtomInfo st !! k with
        | Some info => <[k := with_puller (called (puller info)) info]> (kAllPullAtomInfo st)
        | None => kAllPullAtomInfo st
        end)
       (<[k := catch_up env t k <$> l]> (mReceivers st))
       (mNextPullTimeNs st) (mStatsCompanionService st)
       (effects st
        ++ pull_effects k (kAllPullAtomInfo st !! k)
        ++ delay_effects env t k (kAllPullAtomInfo st !! k)
        ++ omap (λ r, if is_due t r
                      then delivery env t k (kAllPullAtomInfo st !! k) r else None) l),
     foldl Z.min m (served_times env t k l)).
Proof.
  intros Hl. unfold pull_one, PullLocked. cbn [fst snd].
  unfold delivery, delivered_data, delay_effects, pull_effects, pull_answer.
  destruct (kAllPullAtomInfo st !! k) as [info|] eqn:Hinfo.
  - destruct (pullAnswer (puller info) (pullCalls (puller info)) []) as [ret data] eqn:Hans.
    cbn [fst snd].
    destruct ret.
    + match goal with |- foldl _ (?s, _) _ = _ =>
        rewrite (dispatch_due_spec env k _ true t l [] s m Hl) end.
      simpl. rewrite <- !app_assoc. done.
    + match goal with |- foldl _ (?s, _) _ = _ =>
        rewrite (dispatch_due_spec env k _ false t l [] s m Hl) end.
      simpl. rewrite <- !app_assoc. done.
  - cbn [fst snd].
    rewrite (dispatch_due_spec env k _ false t l [] st m Hl). done.
Qed.

Lemma bind_ext_elem {A B} (f g : A → list B) (l : list A) :
  (∀ x, x ∈ l → f x = g x) → l ≫= f = l ≫= g.
Proof.
  induction l as [|x l IH]; intros Hfg; [done |].
  rewrite !bind_cons, (Hfg x) by left. rewrite IH; [done |].
  intros y Hy. apply Hfg. by right.
Qed.

(** The loop over [needToPull], when [needToPull] comes from the entries
    [E] of the registry. *)
Lemma fold_pull_one_spec env t : ∀ (E : list (Z * list ReceiverInfo)) st m,
  NoDup E.*1 →
  (∀ k l, (k, l) ∈ E → mReceivers st !! k = Some l) →
  ∃ st',
    foldl (pull_one env t) (st, m)
      (E ≫= λ pair, if has_due t pair.2
                     then [(pair.1, due_ptrs pair.1 t 0 pair.2)] else [])
    = (st', foldl Z.min m (E ≫= λ pair, served_times env t pair.1 pair.2))
    ∧ (∀ k, mReceivers st' !! k
            = if decide (k ∈ E.*1)
              then fmap (catch_up env t k) <$> mReceivers st !! k
              else mReceivers st !! k)
    ∧ (∀ k, kAllPullAtomInfo st' !! k
            = if decide (k ∈ E.*1) then
                if has_due t (receivers_of k st)
                then (λ info, with_puller (called (puller info)) info)
                       <$> kAllPullAtomInfo st !! k
                else kAllPullAtomInfo st !! k
              else kAllPullAtomInfo st !! k)
    ∧ mNextPullTimeNs st' = mNextPullTimeNs st
    ∧ mStatsCompanionService st' = mStatsCompanionService st
    ∧ effects st'
      = effects st
        ++ (E ≫= λ pair, tag_effects env t pair.1 (kAllPullAtomInfo st !! pair.1) pair.2).
Proof.
  induction E as [|[k l] E IH]; intros st m Hnd HE.
  - exists st. simpl. rewrite app_nil_r. repeat split; done.
  - apply NoDup_cons in Hnd as [Hk Hnd]. simpl in Hk.
    assert (Hl : mReceivers st !! k = Some l) by (apply HE; left).
    assert (Hrest : ∀ k' l', (k', l') ∈ E → k' ≠ k).
    { intros k' l' Hin ->. apply Hk. apply list_elem_of_fmap. by exists (k, l'). }
    rewrite !bind_cons. cbn [fst snd].
    destruct (has_due t l) eqn:Hdue.
    + cbn [app foldl]. rewrite (pull_one_spec env t st m k l Hl).
      match goal with |- ∃ _, foldl _ (?s, ?m1) _ = _ ∧ _ =>
        destruct (IH s m1 Hnd) as (st' & Hfold & Hrec & Hall & Hnext & Hsvc & Heff) end.
      { intros k' l' Hin. simpl. rewrite lookup_insert_ne by (symmetry; by eapply Hrest).
        apply HE. by right. }
      exists st'. simpl in *. rewrite Hfold, foldl_app.
      split; [done |]. split; [| split; [| split; [done | split; [done |]]]].
      * intros x. rewrite Hrec. destruct (decide (x = k)) as [-> | Hne].
        -- rewrite decide_False by done. rewrite decide_True by left.
           by rewrite lookup_insert_eq, Hl.
        -- rewrite lookup_insert_ne by done.
           destruct (decide (x ∈ E.*1)).
           ++ rewrite decide_True by (by right). done.
           ++ rewrite decide_False; [done |]. by intros [? | ?]%elem_of_cons.
      * intros x. rewrite Hall. destruct (decide (x = k)) as [-> | Hne].
        -- rewrite decide_False by done. rewrite decide_True by left.
           unfold receivers_of. rewrite Hl. simpl. rewrite Hdue.
           destruct (kAllPullAtomInfo st !! k) eqn:Hi; simpl;
             [by rewrite lookup_insert_eq | done].
        -- assert (Hlk : (match kAllPullAtomInfo st !! k with
                          | Some info =>
                              <[k := with_puller (called (puller info)) info]>
                                (kAllPullAtomInfo st)
                          | None => kAllPullAtomInfo st
                          end) !! x = kAllPullAtomInfo st !! x).
           { destruct (kAllPullAtomInfo st !! k); [by rewrite lookup_insert_ne | done]. }
           unfold receivers_of. simpl. rewrite lookup_insert_ne by done. rewrite Hlk.
           destruct (decide (x ∈ E.*1)).
           ++ rewrite decide_True by (by right). done.
           ++ rewrite decide_False; [done |]. by intros [? | ?]%elem_of_cons.
      * rewrite Heff. unfold tag_effects at 2. rewrite Hdue. rewrite <- !app_assoc.
        do 4 f_equal. apply bind_ext_elem. intros [k' l'] Hin. simpl.
        destruct (kAllPullAtomInfo st !! k);
          [by rewrite lookup_insert_ne by (symmetry; by eapply Hrest) | done].
    + cbn [app].
      destruct (IH st m Hnd) as (st' & Hfold & Hrec & Hall & Hnext & Hsvc & Heff).
      { intros k' l' Hin. apply HE. by right. }
      exists st'. rewrite Hfold, (served_times_no_due env t k l Hdue). simpl.
      split; [done |]. split; [| split; [| split; [done | split; [done |]]]].
      * intros x. rewrite Hrec. destruct (decide (x = k)) as [-> | Hne].
        -- rewrite decide_False by done. rewrite decide_True by left.
           rewrite Hl. simpl. by rewrite catch_up_no_due.
        -- destruct (decide (x ∈ E.*1)).
           ++ rewrite decide_True by (by right). done.
           ++ rewrite decide_False; [done |]. by intros [? | ?]%elem_of_cons.
      * intros x. rewrite Hall. destruct (decide (x = k)) as [-> | Hne].
        -- rewrite decide_False by done. rewrite decide_True by left.
           unfold receivers_of. rewrite Hl. simpl. by rewrite Hdue.
        -- destruct (decide (x ∈ E.*1)).
           ++ rewrite decide_True by (by right). done.
           ++ rewrite decide_False; [done |]. by intros [? | ?]%elem_of_cons.
      * rewrite Heff. unfold tag_effects at 2. by rewrite Hdue.
Qed.

(** ** OnAlarmFired as a whole *)

Lemma effects_updateAlarmLocked st :
  effects (updateAlarmLocked st)
  = effects st ++ alarm_effects (mNextPullTimeNs st) (mStatsCompanionService st).
Proof.
  unfold updateAlarmLocked, alarm_effects. case_bool_decide; [by rewrite app_nil_r |].
  destruct (mStatsCompanionService st); [done | by rewrite app_nil_r].
Qed.

Lemma mStatsCompanionService_updateAlarmLocked st :
  mStatsCompanionService (updateAlarmLocked st) = mStatsCompanionService st.
Proof.
  unfold updateAlarmLocked. case_bool_decide; [done |].
  by destruct (mStatsCompanionService st) eqn:Hs.
Qed.

Lemma OnAlarmFired_spec env t st :
  (∀ k, mReceivers (OnAlarmFired env t st) !! k
        = fmap (catch_up env t k) <$> mReceivers st !! k)
  ∧ (∀ k, kAllPullAtomInfo (OnAlarmFired env t st) !! k
          = if has_due t (receivers_of k st)
            then (λ info, with_puller (called (puller info)) info)
                   <$> kAllPullAtomInfo st !! k
            else kAllPullAtomInfo st !! k)
  ∧ mNextPullTimeNs (OnAlarmFired env t st) = next_deadline env t st
  ∧ mStatsCompanionService (OnAlarmFired env t st) = mStatsCompanionService st
  ∧ effects (OnAlarmFired env t st)
    = effects st ++ dispatch_effects env t st
      ++ alarm_effects (next_deadline env t st) (mStatsCompanionService st).
Proof.
  unfold OnAlarmFired, needToPull. rewrite fold_collect_due_spec. cbn [app].
  destruct (fold_pull_one_spec env t (entries (mReceivers st)) st
              (foldl Z.min NO_ALARM_UPDATE
                 (entries (mReceivers st) ≫= λ pair, not_due_times t pair.2))
              (NoDup_fst_entries _))
    as (st' & Hfold & Hrec & Hall & Hnext & Hsvc & Heff).
  { intros k l. apply elem_of_entries. }
  rewrite Hfold. fold (next_deadline env t st).
  rewrite mReceivers_updateAlarmLocked, kAllPullAtomInfo_updateAlarmLocked,
    mNextPullTimeNs_updateAlarmLocked, mStatsCompanionService_updateAlarmLocked,
    effects_updateAlarmLocked.
  simpl. split; [| split; [| split; [done | split; [done |]]]].
  - intros k. rewrite Hrec. destruct (decide (k ∈ (entries (mReceivers st)).*1)) as [|Hn]; [done |].
    destruct (mReceivers st !! k) as [l|] eqn:Hl; [| done].
    exfalso. apply Hn. apply list_elem_of_fmap. exists (k, l).
    split; [done | by apply elem_of_entries].
  - intros k. rewrite Hall. destruct (decide (k ∈ (entries (mReceivers st)).*1)) as [|Hn]; [done |].
    unfold receivers_of.
    destruct (mReceivers st !! k) as [l|] eqn:Hl; [| done].
    exfalso. apply Hn. apply list_elem_of_fmap. exists (k, l).
    split; [done | by apply elem_of_entries].
  - rewrite Heff, Hsvc. unfold dispatch_effects. by rewrite <- app_assoc.
Qed.

Lemma OnAlarmFired_receivers_of env t st k :
  receivers_of k (OnAlarmFired env t st) = catch_up env t k <$> receivers_of k st.
Proof.
  unfold receivers_of. rewrite (proj1 (OnAlarmFired_spec env t st) k).
  by destruct (mReceivers st !! k).
Qed.

Lemma emitted_app st st' evs : effects st' = effects st ++ evs → emitted st st' = evs.
Proof. intros Heq. unfold emitted. by rewrite Heq, drop_app_length. Qed.

Lemma emitted_OnAlarmFired env t st :
  emitted st (OnAlarmFired env t st)
  = dispatch_effects env t st
    ++ alarm_effects (next_deadline env t st) (mStatsCompanionService st).
Proof. apply emitted_app. apply OnAlarmFired_spec. Qed.

Lemma PullLocked_answer k st : (PullLocked k [] st).1 = pull_answer (kAllPullAtomInfo st !! k).
Proof.
  unfold PullLocked, pull_answer. destruct (kAllPullAtomInfo st !! k) as [info|]; [| done].
  by destruct (pullAnswer (puller info) (pullCalls (puller info)) []).
Qed.

(** ** Catch-up *)


Lemma OnAlarmFired_lookup env t st tagId i info :
  receivers_of tagId st !! i = Some info →
  receivers_of tagId (OnAlarmFired env t st) !! i = Some (catch_up env t tagId info).
Proof.
  intros Hi. rewrite OnAlarmFired_receivers_of, list_lookup_fmap, Hi. done.
Qed.

(** The catch-up when no step of it leaves [int64_t]: the difference, the
    product and the sum. *)
Lemma reschedule_no_overflow t info :
  60 * NS_PER_SEC ≤ intervalNs info →
  nextPullTimeNs info ≤ t →
  INT64_MIN ≤ nextPullTimeNs info →
  t - nextPullTimeNs info ≤ INT64_MAX →
  ((t - nextPullTimeNs info) `div` intervalNs info + 1) * intervalNs info ≤ INT64_MAX →
  nextPullTimeNs info
  + ((t - nextPullTimeNs info) `div` intervalNs info + 1) * intervalNs info ≤ INT64_MAX →
  reschedule t info
  = mkReceiverInfo
      (nextPullTimeNs info
       + ((t - nextPullTimeNs info) `div` intervalNs info + 1) * intervalNs info)
      (intervalNs info) (receiver info)
  ∧ t < nextPullTimeNs info
        + ((t - nextPullTimeNs info) `div` intervalNs info + 1) * intervalNs info.
Proof.
  unfold reschedule, numBucketsAhead, NS_PER_SEC, INT64_MIN, INT64_MAX.
  destruct info as [next interval rcv]. simpl. intros Hi Hdue Hlo Hd Hprod Hsum.
  set (diff := t - next) in *.
  assert (Hdiff : 0 ≤ diff) by (unfold diff; lia).
  rewrite (wrap64_id diff) by (unfold int64_range, INT64_MIN, INT64_MAX; lia).
  rewrite Z.quot_div_nonneg by lia.
  pose proof (Z.mul_succ_div_gt diff interval ltac:(lia)) as Hgt.
  pose proof (Z.div_pos diff interval Hdiff ltac:(lia)) as Hq.
  assert (Hqu : diff `div` interval ≤ 153722867).
  { apply Z.lt_succ_r. apply Z.div_lt_upper_bound; lia. }
  set (q := diff `div` interval) in *. clearbody q.
  rewrite (wrap32_id q) by lia.
  rewrite (wrap32_id (q + 1)) by lia.
  rewrite (wrap64_id ((q + 1) * interval))
    by (unfold int64_range, INT64_MIN, INT64_MAX; nia).
  rewrite (wrap64_id (next + (q + 1) * interval))
    by (unfold int64_range, INT64_MIN, INT64_MAX; nia).
  split; [done |]. unfold diff in *. nia.
Qed.

(** C2, as the code has it: for a record that is due when the alarm fires at
    [t] and whose receiver can be promoted, OnAlarmFired replaces
    nextPullTimeNs by nextPullTimeNs + (missed + 1) * intervalNs, where
    missed is (t - nextPullTimeNs) / intervalNs rounded down, and the new
    value is later than [t], provided that no step of the computation leaves
    [int64_t]: the difference t - nextPullTimeNs, the product
    (missed + 1) * intervalNs and the sum. With an interval of 60 s and an
    alarm 185 s late the new value is the old one plus 240 s. The interval
    is one that RegisterReceiver stores (at least 60 s). *)
Theorem catch_up_in_one_step env t st tagId i info :
  receivers_of tagId st !! i = Some info →
  nextPullTimeNs info ≤ t →
  promote env tagId (receiver info) = true →
  60 * NS_PER_SEC ≤ intervalNs info →
  INT64_MIN ≤ nextPullTimeNs info →
  t - nextPullTimeNs info ≤ INT64_MAX →
  ((t - nextPullTimeNs info) `div` intervalNs info + 1) * intervalNs info ≤ INT64_MAX →
  nextPullTimeNs info
  + ((t - nextPullTimeNs info) `div` intervalNs info + 1) * intervalNs info ≤ INT64_MAX →
  receivers_of tagId (OnAlarmFired env t st) !! i
  = Some (mkReceiverInfo
            (nextPullTimeNs info
             + ((t - nextPullTimeNs info) `div` intervalNs info + 1) * intervalNs info)
            (intervalNs info) (receiver info))
  ∧ t < nextPullTimeNs info
        + ((t - nextPullTimeNs info) `div` intervalNs info + 1) * intervalNs info
  ∧ (intervalNs info = 60 * NS_PER_SEC →
     t = nextPullTimeNs info + 185 * NS_PER_SEC →
     nextPullTimeNs info
     + ((t - nextPullTimeNs info) `div` intervalNs info + 1) * intervalNs info
     = nextPullTimeNs info + 240 * NS_PER_SEC).
Proof.
  intros Hi Hdue Hp Hint Hlo Hd Hprod Hsum.
  destruct (reschedule_no_overflow t info Hint Hdue Hlo Hd Hprod Hsum) as [Hre Hgt].
  split; [| split; [done |]].
  - rewrite (OnAlarmFired_lookup env t st tagId i info Hi).
    unfold catch_up, served, is_due. rewrite bool_decide_eq_true_2 by done.
    rewrite Hp. simpl. by rewrite Hre.
  - intros -> ->. unfold NS_PER_SEC.
    replace (nextPullTimeNs info + 185 * 1000000000 - nextPullTimeNs info)
      with (185 * 1000000000) by lia.
    reflexivity.
Qed.

Lemma catch_up_in_one_step_witness :
  receivers_of 10005 (OnAlarmFired sample_env (185 * NS_PER_SEC) sample_subscribed) !! 0%nat
  = Some (mkReceiverInfo (0 + ((185 * NS_PER_SEC - 0) `div` (60 * NS_PER_SEC) + 1)
                                * (60 * NS_PER_SEC))
            (60 * NS_PER_SEC) 1%nat)
  ∧ 185 * NS_PER_SEC
    < 0 + ((185 * NS_PER_SEC - 0) `div` (60 * NS_PER_SEC) + 1) * (60 * NS_PER_SEC)
  ∧ (60 * NS_PER_SEC = 60 * NS_PER_SEC →
     185 * NS_PER_SEC = 0 + 185 * NS_PER_SEC →
     0 + ((185 * NS_PER_SEC - 0) `div` (60 * NS_PER_SEC) + 1) * (60 * NS_PER_SEC)
     = 0 + 240 * NS_PER_SEC).
Proof.
  apply (catch_up_in_one_step sample_env (185 * NS_PER_SEC) sample_subscribed 10005 0%nat
           (mkReceiverInfo 0 (60 * NS_PER_SEC) 1%nat)).
  - reflexivity.
  - simpl. unfold NS_PER_SEC. lia.
  - reflexivity.
  - simpl. lia.
  - simpl. unfold INT64_MIN. lia.
  - simpl. unfold INT64_MAX, NS_PER_SEC. lia.
  - vm_compute. discriminate.
  - vm_compute. discriminate.
Defined.

(** C2, as stated, fails when the catch-up leaves [int64_t]: the record is
    due at INT64_MAX - 10 with an interval of 60 s, the alarm fires at
    INT64_MAX and the receiver can be promoted; the new next pull time is
    negative, so neither later than the alarm nor the old time plus
    (missed + 1) intervals. *)
Lemma catch_up_overflows_near_int64_max :
  receivers_of 10005 sample_late !! 0%nat
  = Some (mkReceiverInfo (INT64_MAX - 10) (60 * NS_PER_SEC) 1%nat)
  ∧ INT64_MAX - 10 ≤ INT64_MAX
  ∧ promote sample_env 10005 1%nat = true
  ∧ receivers_of 10005 (OnAlarmFired sample_env INT64_MAX sample_late) !! 0%nat
    = Some (mkReceiverInfo (-9223371976854775819) (60 * NS_PER_SEC) 1%nat)
  ∧ ¬ (INT64_MAX < -9223371976854775819)
  ∧ -9223371976854775819
    ≠ (INT64_MAX - 10)
      + ((INT64_MAX - (INT64_MAX - 10)) `div` (60 * NS_PER_SEC) + 1) * (60 * NS_PER_SEC).
Proof.
  split; [reflexivity |]. split; [unfold INT64_MAX; lia |]. split; [reflexivity |].
  split; [reflexivity |]. split; [unfold INT64_MAX; lia |].
  vm_compute. discriminate.
Qed.

(** ** The calls of one OnAlarmFired *)

Lemma elem_of_dispatch_effects env t st e :
  e ∈ dispatch_effects env t st
  ↔ ∃ k l, mReceivers st !! k = Some l
           ∧ e ∈ tag_effects env t k (kAllPullAtomInfo st !! k) l.
Proof.
  unfold dispatch_effects. rewrite list_elem_of_bind. split.
  - intros ([k l] & He & Hin). apply elem_of_entries in Hin. by exists k, l.
  - intros (k & l & Hl & He). exists (k, l). split; [done | by apply elem_of_entries].
Qed.

Lemma elem_of_tag_effects env t k info l e :
  e ∈ tag_effects env t k info l
  ↔ has_due t l = true
    ∧ (e ∈ pull_effects k info
       ∨ e ∈ delay_effects env t k info
       ∨ ∃ r, r ∈ l ∧ is_due t r = true ∧ delivery env t k info r = Some e).
Proof.
  unfold tag_effects. destruct (has_due t l).
  - rewrite !elem_of_app, list_elem_of_omap. split.
    + intros [? | [? | (r & Hr & He)]]; (split; [done |]); [tauto | tauto |].
      right; right. exists r. destruct (is_due t r); [done | discriminate].
    + intros [_ [? | [? | (r & Hr & Hd & He)]]]; [tauto | tauto |].
      right; right. exists r. by rewrite Hd.
  - split; [by intros ?%elem_of_nil | by intros [? _]].
Qed.

Lemma tag_effects_tag env t k info l e :
  e ∈ tag_effects env t k info l → effect_tag e = Some k.
Proof.
  rewrite elem_of_tag_effects. intros [_ [He | [He | (r & _ & _ & He)]]].
  - unfold pull_effects in He. destruct info; [| by apply elem_of_nil in He].
    apply elem_of_cons in He as [-> | He]; [done |].
    destruct (pull_answer _).1; [by apply elem_of_nil in He |].
    by apply list_elem_of_singleton in He as ->.
  - unfold delay_effects in He. destruct (pull_answer _).1; [| by apply elem_of_nil in He].
    by apply list_elem_of_singleton in He as ->.
  - unfold delivery in He. destruct (promote env k (receiver r)); [| done].
    by inversion He.
Qed.

Lemma alarm_effects_tag d s e : e ∈ alarm_effects d s → effect_tag e = None.
Proof.
  unfold alarm_effects. case_bool_decide; [by intros ?%elem_of_nil |].
  destruct s; [| by intros ?%elem_of_nil].
  by intros ->%list_elem_of_singleton.
Qed.

(** A call made by OnAlarmFired for the tag [k] is one of the calls made in
    the round of [k]. *)
Lemma elem_of_emitted_OnAlarmFired env t st k e :
  effect_tag e = Some k →
  e ∈ emitted st (OnAlarmFired env t st)
  ↔ e ∈ tag_effects env t k (kAllPullAtomInfo st !! k) (receivers_of k st).
Proof.
  intros Htag. rewrite emitted_OnAlarmFired, elem_of_app, elem_of_dispatch_effects. split.
  - intros [(k' & l & Hl & He) | He].
    + pose proof (tag_effects_tag _ _ _ _ _ _ He) as Hk.
      assert (k' = k) as -> by congruence.
      unfold receivers_of. by rewrite Hl.
    + apply alarm_effects_tag in He. congruence.
  - intros He. left. unfold receivers_of in He.
    destruct (mReceivers st !! k) as [l|] eqn:Hl; [by exists k, l |].
    simpl in He. by apply elem_of_nil in He.
Qed.

Lemma pulls_of_app k evs1 evs2 :
  pulls_of k (evs1 ++ evs2) = (pulls_of k evs1 + pulls_of k evs2)%nat.
Proof. unfold pulls_of. by rewrite filter_app, length_app. Qed.

Lemma pulls_of_none k evs :
  (∀ e, e ∈ evs → e ≠ PullerPull k) → pulls_of k evs = 0%nat.
Proof.
  intros Hn. unfold pulls_of.
  induction evs as [|e evs IH]; [done |].
  rewrite filter_cons_False by (apply Hn; left).
  apply IH. intros e' He'. apply Hn. by right.
Qed.

Lemma pulls_of_tag_effects env t k k' info l :
  (pulls_of k (tag_effects env t k' info l) ≤ 1)%nat
  ∧ (k ≠ k' → pulls_of k (tag_effects env t k' info l) = 0%nat).
Proof.
  split.
  - unfold tag_effects. destruct (has_due t l); [| unfold pulls_of; simpl; lia].
    rewrite !pulls_of_app.
    assert (pulls_of k (pull_effects k' info) ≤ 1)%nat as H1.
    { unfold pull_effects. destruct info; [| unfold pulls_of; simpl; lia].
      destruct (pull_answer _).1; unfold pulls_of; rewrite !filter_cons;
        repeat case_decide; simpl; try lia; done. }
    rewrite (pulls_of_none k (delay_effects env t k' info)).
    2: { unfold delay_effects. intros e He.
         destruct (pull_answer _).1; [| by apply elem_of_nil in He].
         by apply list_elem_of_singleton in He as ->. }
    rewrite (pulls_of_none k (omap _ l)); [lia |].
    intros e (r & _ & He)%list_elem_of_omap.
    destruct (is_due t r); [| done]. unfold delivery in He.
    destruct (promote env k' (receiver r)); [| done]. by inversion He.
  - intros Hne. apply pulls_of_none. intros e He ->.
    apply tag_effects_tag in He. simpl in He. congruence.
Qed.

Lemma pulls_of_bind env t st k : ∀ (E : list (Z * list ReceiverInfo)),
  NoDup E.*1 →
  (pulls_of k (E ≫= λ pair, tag_effects env t pair.1 (kAllPullAtomInfo st !! pair.1) pair.2)
   ≤ 1)%nat
  ∧ (k ∉ E.*1 →
     pulls_of k (E ≫= λ pair, tag_effects env t pair.1 (kAllPullAtomInfo st !! pair.1) pair.2)
     = 0%nat).
Proof.
  induction E as [|[k' l] E IH]; intros Hnd;
    [split; [unfold pulls_of; simpl; lia | done] |].
  apply NoDup_cons in Hnd as [Hk' Hnd]. destruct (IH Hnd) as [IH1 IH0].
  rewrite bind_cons, pulls_of_app. cbn [fst snd].
  destruct (pulls_of_tag_effects env t k k' (kAllPullAtomInfo st !! k') l) as [H1 H0].
  split.
  - destruct (decide (k = k')) as [-> | Hne].
    + rewrite (IH0 Hk'). lia.
    + rewrite (H0 Hne). lia.
  - intros Hnot. rewrite H0, IH0; [done | |].
    + intros Hin. apply Hnot. by right.
    + intros ->. apply Hnot. by left.
Qed.

Lemma NoDup_needToPull t st : NoDup (needToPull t st).1.*1.
Proof.
  unfold needToPull. rewrite fold_collect_due_spec. cbn [fst app].
  pose proof (NoDup_fst_entries (mReceivers st)) as Hnd.
  induction (entries (mReceivers st)) as [|[k l] E IH]; [constructor |].
  apply NoDup_cons in Hnd as [Hk Hnd]. rewrite bind_cons. cbn [fst snd].
  destruct (has_due t l); [| by apply IH].
  cbn [app fmap list_fmap fst]. apply NoDup_cons. split; [| by apply IH].
  intros Hin. apply Hk. clear -Hin.
  induction E as [|[k' l'] E IH]; [by apply elem_of_nil in Hin |].
  rewrite bind_cons in Hin. cbn [fst snd] in Hin.
  destruct (has_due t l').
  - cbn [app fmap list_fmap fst] in Hin.
    apply elem_of_cons in Hin as [-> | Hin]; [left | right; by apply IH].
  - right. by apply IH.
Qed.

(** ** The operations that leave the registry alone *)

Lemma foldl_emit_fields {A} (f : A → Effect) (l : list A) : ∀ st,
  let st' := foldl (λ s x, emit (f x) s) st l in
  kAllPullAtomInfo st' = kAllPullAtomInfo st
  ∧ mReceivers st' = mReceivers st
  ∧ mNextPullTimeNs st' = mNextPullTimeNs st
  ∧ mStatsCompanionService st' = mStatsCompanionService st.
Proof.
  induction l as [|x l IH]; intros st; simpl; [done |].
  destruct (IH (emit (f x) st)) as (H1 & H2 & H3 & H4).
  rewrite H1, H2, H3, H4. done.
Qed.

Lemma foldl_count_emit_fields {A} (g : Z → A → Z) (f : A → Effect) (l : list A) :
  ∀ total st,
  let st' := (foldl (λ '(totalCleared, s) x, (g totalCleared x, emit (f x) s))
                (total, st) l).2 in
  kAllPullAtomInfo st' = kAllPullAtomInfo st
  ∧ mReceivers st' = mReceivers st
  ∧ mNextPullTimeNs st' = mNextPullTimeNs st
  ∧ mStatsCompanionService st' = mStatsCompanionService st.
Proof.
  induction l as [|x l IH]; intros total st; simpl; [done |].
  destruct (IH (g total x) (emit (f x) st)) as (H1 & H2 & H3 & H4).
  rewrite H1, H2, H3, H4. done.
Qed.

Lemma PullLocked_registry tagId data st :
  mReceivers (PullLocked tagId data st).2 = mReceivers st
  ∧ mNextPullTimeNs (PullLocked tagId data st).2 = mNextPullTimeNs st.
Proof.
  unfold PullLocked. destruct (kAllPullAtomInfo st !! tagId) as [info|]; [| done].
  destruct (pullAnswer (puller info) (pullCalls (puller info)) data) as [[] out]; done.
Qed.

Lemma SetStatsCompanionService_registry s st :
  mReceivers (SetStatsCompanionService s st) = mReceivers st
  ∧ mNextPullTimeNs (SetStatsCompanionService s st) = mNextPullTimeNs st.
Proof.
  unfold SetStatsCompanionService.
  match goal with |- context [foldl ?f ?s0 ?l] =>
    destruct (foldl_emit_fields (λ pulledAtom : Z * PullAtomInfo,
                PullerSetStatsCompanionService pulledAtom.1 s) l s0)
      as (_ & H2 & H3 & H4);
    change (foldl f s0 l) with
      (foldl (λ s1 x, emit ((λ pulledAtom : Z * PullAtomInfo,
                PullerSetStatsCompanionService pulledAtom.1 s) x) s1) s0 l)
  end.
  destruct (mStatsCompanionService _);
    rewrite ?mReceivers_updateAlarmLocked, ?mNextPullTimeNs_updateAlarmLocked, H2, H3; done.
Qed.

(** Every operation but the three on receivers leaves [mReceivers] and
    [mNextPullTimeNs] as they are. *)
Lemma exec_registry isV dcd dto op st :
  match op with
  | OpRegisterReceiver _ _ _ _ | OpUnRegisterReceiver _ _ | OpOnAlarmFired _ _ => True
  | _ => mReceivers (exec isV dcd dto op st) = mReceivers st
         ∧ mNextPullTimeNs (exec isV dcd dto op st) = mNextPullTimeNs st
  end.
Proof.
  destruct op; simpl; try done.
  - apply PullLocked_registry.
  - apply SetStatsCompanionService_registry.
  - unfold ForceClearPullerCache.
    match goal with |- context [foldl _ (0, st) ?l] =>
      destruct (foldl_count_emit_fields
                  (λ totalCleared (pulledAtom : Z * PullAtomInfo),
                     wrap32 (totalCleared + forceClearCacheAnswer (puller pulledAtom.2)))
                  (λ pulledAtom, PullerForceClearCache pulledAtom.1) l 0 st)
        as (_ & H2 & H3 & _) end.
    done.
  - unfold ClearPullerCacheIfNecessary.
    match goal with |- context [foldl _ (0, st) ?l] =>
      destruct (foldl_count_emit_fields
                  (λ totalCleared (pulledAtom : Z * PullAtomInfo),
                     wrap32 (totalCleared
                             + clearCacheIfNecessaryAnswer (puller pulledAtom.2) timestampNs))
                  (λ pulledAtom, PullerClearCacheIfNecessary pulledAtom.1 timestampNs) l 0 st)
        as (_ & H2 & H3 & _) end.
    done.
  - unfold RegisterPullerCallback. by destruct (isV atomTag).
  - unfold UnregisterPullerCallback. by destruct (isV atomTag).
Qed.

(** ** Receivers across the operations *)

Lemma receivers_of_RegisterReceiver_ne tagId rcv next interval st k :
  k ≠ tagId →
  receivers_of k (RegisterReceiver tagId rcv next interval st) = receivers_of k st.
Proof.
  intros Hne. destruct (decide (subscribed tagId rcv st)) as [Hs | Hn].
  - by rewrite RegisterReceiver_known.
  - unfold receivers_of. rewrite (proj1 (RegisterReceiver_new _ _ next interval _ Hn)).
    by rewrite lookup_insert_ne.
Qed.

Lemma receivers_of_RegisterReceiver_new tagId rcv next interval st :
  ¬ subscribed tagId rcv st →
  receivers_of tagId (RegisterReceiver tagId rcv next interval st)
  = receivers_of tagId st ++ [mkReceiverInfo next (roundedIntervalNs interval) rcv].
Proof.
  intros Hn. unfold receivers_of at 1.
  rewrite (proj1 (RegisterReceiver_new _ _ next interval _ Hn)).
  by rewrite lookup_insert_eq.
Qed.

Lemma receivers_of_UnRegisterReceiver tagId rcv st k :
  receivers_of k (UnRegisterReceiver tagId rcv st)
  = if decide (k = tagId) then erase_first rcv (receivers_of k st) else receivers_of k st.
Proof.
  unfold UnRegisterReceiver, receivers_of.
  destruct (decide (k = tagId)) as [-> | Hne].
  - destruct (mReceivers st !! tagId) as [l|] eqn:Hl; simpl.
    + by rewrite lookup_insert_eq.
    + by rewrite Hl.
  - destruct (mReceivers st !! tagId) as [l|] eqn:Hl; simpl; [| done].
    by rewrite lookup_insert_ne.
Qed.

Lemma mNextPullTimeNs_UnRegisterReceiver tagId rcv st :
  mNextPullTimeNs (UnRegisterReceiver tagId rcv st) = mNextPullTimeNs st.
Proof. unfold UnRegisterReceiver. by destruct (mReceivers st !! tagId). Qed.

Lemma elem_of_erase_first rcv l info : info ∈ erase_first rcv l → info ∈ l.
Proof.
  induction l as [|it rest IH]; simpl; [done |].
  case_bool_decide; [by right |].
  intros [-> | Hin]%elem_of_cons; [left | right; by apply IH].
Qed.

Lemma NoDup_erase_first rcv l :
  NoDup (receiver <$> l) → NoDup (receiver <$> erase_first rcv l).
Proof.
  induction l as [|it rest IH]; [done |].
  cbn [erase_first]. rewrite fmap_cons. intros [Hit Hnd]%NoDup_cons.
  case_bool_decide; [done |].
  rewrite fmap_cons. apply NoDup_cons. split; [| by apply IH].
  intros (x & Hx & Hin)%list_elem_of_fmap. apply Hit.
  apply list_elem_of_fmap. exists x. split; [done | by eapply elem_of_erase_first].
Qed.

Lemma erase_first_length rcv l :
  Exists (λ info, receiver info = rcv) l →
  S (length (erase_first rcv l)) = length l.
Proof.
  induction l as [|it rest IH]; simpl.
  - by intros ?%Exists_nil.
  - intros Hex. case_bool_decide as Heq; [done |].
    apply Exists_cons in Hex as [Hit | Hrest]; [by subst |].
    simpl. by rewrite IH.
Qed.

Lemma erase_first_unique rcv l :
  NoDup (receiver <$> l) → ¬ Exists (λ info, receiver info = rcv) (erase_first rcv l).
Proof.
  induction l as [|it rest IH].
  - intros _ Hex. simpl in Hex. by apply Exists_nil in Hex.
  - cbn [erase_first]. rewrite fmap_cons. intros [Hit Hnd]%NoDup_cons.
    case_bool_decide as Heq.
    + rewrite Exists_exists. intros (x & Hx & Hr). apply Hit.
      apply list_elem_of_fmap. exists x. split; [congruence | done].
    + rewrite Exists_cons. intros [Hr | Hr]; [congruence | by apply IH].
Qed.

Ltac registry_untouched Hreg tac :=
  lazymatch type of Hreg with
  | True => idtac
  | _ ∧ _ =>
      let Hm := fresh "Hm" in
      destruct Hreg as [Hm _]; unfold receivers_of; rewrite Hm; tac
  end.

Lemma unique_exec isV dcd dto op st :
  unique_receivers st → unique_receivers (exec isV dcd dto op st).
Proof.
  intros Hu k.
  pose proof (exec_registry isV dcd dto op st) as Hreg.
  destruct op; cbn [exec] in *; registry_untouched Hreg ltac:(apply Hu).
  - simpl. destruct (decide (subscribed tagId rcv st)) as [Hs | Hn].
    + rewrite RegisterReceiver_known by done. apply Hu.
    + destruct (decide (k = tagId)) as [-> | Hne].
      * rewrite receivers_of_RegisterReceiver_new by done.
        rewrite fmap_app. apply NoDup_app. split; [apply Hu |]. split.
        -- intros x (info & Hx & Hin)%list_elem_of_fmap ->%list_elem_of_singleton.
           apply Hn. apply Exists_exists. by exists info.
        -- apply NoDup_singleton.
      * rewrite receivers_of_RegisterReceiver_ne by done. apply Hu.
  - simpl. rewrite receivers_of_UnRegisterReceiver.
    case_decide; [apply NoDup_erase_first |]; apply Hu.
  - simpl. rewrite OnAlarmFired_receivers_of, <- list_fmap_compose.
    rewrite (list_fmap_ext (receiver ∘ catch_up env elapsedTimeNs k) receiver
               (receivers_of k st)); [apply Hu |].
    intros i x _. simpl. apply catch_up_receiver.
Qed.

Lemma subscribed_exec isV dcd dto op st tagId rcv :
  is_unregister op = false →
  subscribed tagId rcv st → subscribed tagId rcv (exec isV dcd dto op st).
Proof.
  intros Hop Hs. unfold subscribed in *.
  pose proof (exec_registry isV dcd dto op st) as Hreg.
  destruct op; try discriminate; cbn [exec] in *;
    registry_untouched Hreg ltac:(exact Hs).
  - simpl. destruct (decide (subscribed tagId0 rcv0 st)) as [Hs0 | Hn].
    + by rewrite RegisterReceiver_known.
    + destruct (decide (tagId = tagId0)) as [-> | Hne].
      * rewrite receivers_of_RegisterReceiver_new by done.
        apply Exists_app. by left.
      * by rewrite receivers_of_RegisterReceiver_ne.
  - simpl. rewrite OnAlarmFired_receivers_of. apply Exists_fmap.
    eapply Exists_impl; [exact Hs |]. intros x Hx. simpl. by rewrite catch_up_receiver.
Qed.

Lemma filter_receiver_nil rcv l :
  ¬ Exists (λ info, receiver info = rcv) l →
  filter (λ info, receiver info = rcv) l = [].
Proof.
  induction l as [|it rest IH]; [done |].
  rewrite Exists_cons. intros Hn.
  rewrite filter_cons_False by tauto. apply IH. tauto.
Qed.

Lemma records_of_unique l rcv :
  NoDup (receiver <$> l) →
  Exists (λ info, receiver info = rcv) l →
  length (filter (λ info, receiver info = rcv) l) = 1%nat.
Proof.
  induction l as [|it rest IH].
  - by intros _ ?%Exists_nil.
  - rewrite fmap_cons. intros [Hit Hnd]%NoDup_cons Hex.
    destruct (decide (receiver it = rcv)) as [Heq | Hne].
    + rewrite filter_cons_True by done. simpl. f_equal.
      rewrite filter_receiver_nil; [done |].
      rewrite Exists_exists. intros (x & Hx & Hr). apply Hit.
      apply list_elem_of_fmap. exists x. split; [congruence | done].
    + rewrite filter_cons_False by done. apply IH; [done |].
      apply Exists_cons in Hex as [? | ?]; done.
Qed.

(** ** One record per pair of a tag and a receiver *)

(** C5: the registry starts with, and every public operation keeps, at most
    one record per pair of a tag and a receiver; a second RegisterReceiver
    for a pair changes nothing at all, whatever its arguments, so the record
    of the pair keeps its interval and its next pull time; and after a
    RegisterReceiver the pair has exactly one record. *)
Theorem one_record_per_pair
    (isVendorPulledAtom : Z → bool) (defaultCoolDownNs defaultPullTimeoutNs : Z) :
  (∀ table, unique_receivers (initial table))
  ∧ (∀ op st,
       unique_receivers st →
       unique_receivers
         (exec isVendorPulledAtom defaultCoolDownNs defaultPullTimeoutNs op st))
  ∧ (∀ tagId rcv next interval next' interval' st,
       RegisterReceiver tagId rcv next' interval'
         (RegisterReceiver tagId rcv next interval st)
       = RegisterReceiver tagId rcv next interval st)
  ∧ (∀ tagId rcv next interval st,
       unique_receivers st →
       length (records_of tagId rcv (RegisterReceiver tagId rcv next interval st))
       = 1%nat).
Proof.
  split; [| split; [| split]].
  - intros table k. unfold receivers_of. simpl. rewrite lookup_empty. constructor.
  - intros op st. apply unique_exec.
  - intros tagId rcv next interval next' interval' st.
    apply RegisterReceiver_known.
    destruct (decide (subscribed tagId rcv st)) as [Hs | Hn].
    + by rewrite RegisterReceiver_known.
    + unfold subscribed. rewrite receivers_of_RegisterReceiver_new by done.
      apply Exists_app. right. by apply Exists_cons_hd.
  - intros tagId rcv next interval st Hu. unfold records_of.
    destruct (decide (subscribed tagId rcv st)) as [Hs | Hn].
    + rewrite RegisterReceiver_known by done. apply records_of_unique; [apply Hu | done].
    + rewrite receivers_of_RegisterReceiver_new by done.
      rewrite filter_app, filter_receiver_nil by done.
      rewrite filter_cons_True by done. done.
Qed.

Lemma one_record_per_pair_witness :
  unique_receivers
    (exec sample_isVendorPulledAtom 0 0 (OpRegisterReceiver 10005 1%nat 5 5)
       sample_subscribed)
  ∧ length (records_of 10005 1%nat (RegisterReceiver 10005 1%nat 5 5 sample_subscribed))
    = 1%nat.
Proof.
  assert (Hu : unique_receivers sample_subscribed).
  { apply (proj1 (proj2 (one_record_per_pair sample_isVendorPulledAtom 0 0))
             (OpRegisterReceiver 10005 1%nat 0 (60 * NS_PER_SEC)) (initial sample_table)).
    apply (proj1 (one_record_per_pair sample_isVendorPulledAtom 0 0)). }
  split.
  - apply (proj1 (proj2 (one_record_per_pair sample_isVendorPulledAtom 0 0))). exact Hu.
  - apply (proj2 (proj2 (proj2 (one_record_per_pair sample_isVendorPulledAtom 0 0)))).
    exact Hu.
Defined.

(** ** Receivers that are gone *)

(** C9: a record whose receiver cannot be promoted when the alarm fires is
    left as it is and nothing is delivered to the receiver; the records that
    are due and whose receiver can be promoted are served all the same (the
    data are delivered and the record is rescheduled); the pair stays
    subscribed after OnAlarmFired and after every operation other than
    UnRegisterReceiver, and UnRegisterReceiver for the pair removes a
    record: the record of the pair, when the pair has one record only. *)
Theorem unreachable_receiver_is_skipped
    (isVendorPulledAtom : Z → bool) (defaultCoolDownNs defaultPullTimeoutNs : Z)
    env t st tagId i info :
  receivers_of tagId st !! i = Some info →
  promote env tagId (receiver info) = false →
  receivers_of tagId (OnAlarmFired env t st) !! i = Some info
  ∧ (∀ data pullSuccess ts,
       OnDataPulled tagId (receiver info) data pullSuccess ts
       ∉ emitted st (OnAlarmFired env t st))
  ∧ (∀ k j other,
       receivers_of k st !! j = Some other →
       nextPullTimeNs other ≤ t →
       promote env k (receiver other) = true →
       OnDataPulled k (receiver other)
         (stamp env t <$> (PullLocked k [] st).1.2) (PullLocked k [] st).1.1 t
       ∈ emitted st (OnAlarmFired env t st)
       ∧ receivers_of k (OnAlarmFired env t st) !! j = Some (reschedule t other))
  ∧ subscribed tagId (receiver info) (OnAlarmFired env t st)
  ∧ (∀ op st',
       is_unregister op = false →
       subscribed tagId (receiver info) st' →
       subscribed tagId (receiver info)
         (exec isVendorPulledAtom defaultCoolDownNs defaultPullTimeoutNs op st'))
  ∧ S (length (receivers_of tagId
                 (UnRegisterReceiver tagId (receiver info) (OnAlarmFired env t st))))
    = length (receivers_of tagId (OnAlarmFired env t st))
  ∧ (unique_receivers st →
     ¬ subscribed tagId (receiver info)
         (UnRegisterReceiver tagId (receiver info) (OnAlarmFired env t st))).
Proof.
  intros Hi Hp.
  assert (Hkeep : receivers_of tagId (OnAlarmFired env t st) !! i = Some info).
  { rewrite (OnAlarmFired_lookup env t st tagId i info Hi).
    unfold catch_up, served. rewrite Hp. by rewrite andb_false_r. }
  assert (Hsub : subscribed tagId (receiver info) (OnAlarmFired env t st)).
  { unfold subscribed. apply Exists_exists. exists info. split; [| done].
    by eapply list_elem_of_lookup_2. }
  split; [done |]. split; [| split; [| split; [done | split; [| split]]]].
  - intros data succ ts He.
    apply (elem_of_emitted_OnAlarmFired env t st tagId) in He; [| done].
    apply elem_of_tag_effects in He as [_ [He | [He | (r & _ & _ & He)]]].
    + unfold pull_effects in He. destruct (kAllPullAtomInfo st !! tagId);
        [| by apply elem_of_nil in He].
      apply elem_of_cons in He as [? | He]; [done |].
      destruct (pull_answer _).1; [by apply elem_of_nil in He |].
      by apply list_elem_of_singleton in He.
    + unfold delay_effects in He. destruct (pull_answer _).1; [| by apply elem_of_nil in He].
      by apply list_elem_of_singleton in He.
    + unfold delivery in He. destruct (promote env tagId (receiver r)) eqn:Hr; [| done].
      inversion He; subst. congruence.
  - intros k j other Hj Hdue Hpo. split.
    + apply (elem_of_emitted_OnAlarmFired env t st k); [done |].
      apply elem_of_tag_effects.
      assert (Hd : is_due t other = true) by (unfold is_due; by rewrite bool_decide_eq_true_2).
      assert (Hin : other ∈ receivers_of k st) by (by eapply list_elem_of_lookup_2).
      split.
      * unfold has_due. apply existsb_exists. exists other.
        split; [by apply list_elem_of_In | done].
      * right; right. exists other. split; [done |]. split; [done |].
        unfold delivery, delivered_data. by rewrite Hpo, PullLocked_answer.
    + rewrite (OnAlarmFired_lookup env t st k j other Hj).
      unfold catch_up, served, is_due. rewrite bool_decide_eq_true_2 by done.
      by rewrite Hpo.
  - intros op st'. apply subscribed_exec.
  - rewrite receivers_of_UnRegisterReceiver. rewrite decide_True by done.
    by apply erase_first_length.
  - intros Hu. unfold subscribed.
    rewrite receivers_of_UnRegisterReceiver. rewrite decide_True by done.
    apply erase_first_unique.
    apply (unique_exec isVendorPulledAtom defaultCoolDownNs defaultPullTimeoutNs
             (OpOnAlarmFired env t) st Hu tagId).
Qed.

Lemma unreachable_receiver_is_skipped_witness :
  receivers_of 10005 sample_two !! 0%nat
  = Some (mkReceiverInfo 50 (120 * NS_PER_SEC) 9%nat)
  ∧ promote sample_env_gone 10005 9%nat = false
  ∧ receivers_of 10005 (OnAlarmFired sample_env_gone 100 sample_two) !! 0%nat
    = Some (mkReceiverInfo 50 (120 * NS_PER_SEC) 9%nat).
Proof.
  split; [reflexivity |]. split; [reflexivity |].
  apply (proj1 (unreachable_receiver_is_skipped sample_isVendorPulledAtom 0 0
                  sample_env_gone 100 sample_two 10005 0%nat
                  (mkReceiverInfo 50 (120 * NS_PER_SEC) 9%nat) eq_refl eq_refl)).
Defined.

(** ** One pull per tag *)

(** C3: in one call of OnAlarmFired the tags for which PullLocked is called
    are pairwise different, so the puller of a tag is called at most once:
    once when the tag has a due record, not at all otherwise; every record of the tag that is due and whose receiver can be promoted
    is handed the answer of that one pull, and every delivery for the tag
    carries the same data, the same success flag and the time of the alarm;
    the events of the data all have the time of the alarm as elapsed
    timestamp and the wall clock read on entry as wall-clock timestamp. *)
Theorem single_pull_per_tag env t st tagId :
  NoDup (needToPull t st).1.*1
  ∧ (pulls_of tagId (emitted st (OnAlarmFired env t st)) ≤ 1)%nat
  ∧ (∀ atomInfo,
       kAllPullAtomInfo st !! tagId = Some atomInfo →
       ∃ atomInfo',
         kAllPullAtomInfo (OnAlarmFired env t st) !! tagId = Some atomInfo'
         ∧ pullCalls (puller atomInfo')
           = if has_due t (receivers_of tagId st)
             then S (pullCalls (puller atomInfo)) else pullCalls (puller atomInfo))
  ∧ (∀ i info,
       receivers_of tagId st !! i = Some info →
       nextPullTimeNs info ≤ t →
       promote env tagId (receiver info) = true →
       OnDataPulled tagId (receiver info)
         (stamp env t <$> (PullLocked tagId [] st).1.2) (PullLocked tagId [] st).1.1 t
       ∈ emitted st (OnAlarmFired env t st))
  ∧ (∀ rcv data pullSuccess ts,
       OnDataPulled tagId rcv data pullSuccess ts ∈ emitted st (OnAlarmFired env t st) →
       data = stamp env t <$> (PullLocked tagId [] st).1.2
       ∧ pullSuccess = (PullLocked tagId [] st).1.1
       ∧ ts = t)
  ∧ (∀ event,
       event ∈ stamp env t <$> (PullLocked tagId [] st).1.2 →
       elapsedTimestampNs event = t
       ∧ logdWallClockTimestampNs event = getWallClockNs env).
Proof.
  split; [apply NoDup_needToPull |]. split; [| split; [| split; [| split]]].
  - rewrite emitted_OnAlarmFired, pulls_of_app.
    rewrite (pulls_of_none tagId (alarm_effects _ _)).
    2: { intros e He ->. apply alarm_effects_tag in He. done. }
    unfold dispatch_effects.
    destruct (pulls_of_bind env t st tagId (entries (mReceivers st))
                (NoDup_fst_entries _)) as [H1 _].
    lia.
  - intros atomInfo Hinfo.
    rewrite (proj1 (proj2 (OnAlarmFired_spec env t st)) tagId), Hinfo.
    destruct (has_due t (receivers_of tagId st)); eexists; (split; [reflexivity | done]).
  - intros i info Hi Hdue Hp.
    apply (elem_of_emitted_OnAlarmFired env t st tagId); [done |].
    apply elem_of_tag_effects.
    assert (Hd : is_due t info = true) by (unfold is_due; by rewrite bool_decide_eq_true_2).
    assert (Hin : info ∈ receivers_of tagId st) by (by eapply list_elem_of_lookup_2).
    split.
    + unfold has_due. apply existsb_exists. exists info.
      split; [by apply list_elem_of_In | done].
    + right; right. exists info. split; [done |]. split; [done |].
      unfold delivery, delivered_data. by rewrite Hp, PullLocked_answer.
  - intros rcv data succ ts He.
    apply (elem_of_emitted_OnAlarmFired env t st tagId) in He; [| done].
    apply elem_of_tag_effects in He as [_ [He | [He | (r & _ & _ & He)]]].
    + unfold pull_effects in He. destruct (kAllPullAtomInfo st !! tagId);
        [| by apply elem_of_nil in He].
      apply elem_of_cons in He as [? | He]; [done |].
      destruct (pull_answer _).1; [by apply elem_of_nil in He |].
      by apply list_elem_of_singleton in He.
    + unfold delay_effects in He. destruct (pull_answer _).1; [| by apply elem_of_nil in He].
      by apply list_elem_of_singleton in He.
    + unfold delivery, delivered_data in He.
      destruct (promote env tagId (receiver r)); [| done].
      inversion He; subst. by rewrite PullLocked_answer.
  - intros event (raw & -> & _)%list_elem_of_fmap. done.
Qed.

(** ** The pull delay *)

(** C7, as the code has it: for a tag with a due record, OnAlarmFired
    reports a pull delay exactly when the pull of the tag succeeded, and the
    delay is the elapsed-realtime clock read after the pull minus the time of
    the alarm; for a tag without a due record it reports none. *)
Theorem pull_delay_reported_on_success env t st tagId delayNs :
  NotePullDelay tagId delayNs ∈ emitted st (OnAlarmFired env t st)
  ↔ has_due t (receivers_of tagId st) = true
    ∧ (PullLocked tagId [] st).1.1 = true
    ∧ delayNs = wrap64 (getElapsedRealtimeNs env tagId - t).
Proof.
  rewrite (elem_of_emitted_OnAlarmFired env t st tagId) by done.
  rewrite elem_of_tag_effects, PullLocked_answer. split.
  - intros [Hd [He | [He | (r & _ & _ & He)]]].
    + unfold pull_effects in He. destruct (kAllPullAtomInfo st !! tagId);
        [| by apply elem_of_nil in He].
      apply elem_of_cons in He as [? | He]; [done |].
      destruct (pull_answer _).1; [by apply elem_of_nil in He |].
      by apply list_elem_of_singleton in He.
    + unfold delay_effects in He.
      destruct (pull_answer _).1; [| by apply elem_of_nil in He].
      apply list_elem_of_singleton in He. inversion He. done.
    + unfold delivery in He. destruct (promote env tagId (receiver r)); done.
  - intros (Hd & Hs & ->). split; [done |]. right; left.
    unfold delay_effects. rewrite Hs. by apply list_elem_of_singleton.
Qed.

(** C7, as stated, fails when the pull fails: the tag 10005 has a due
    record, its puller answers false, and no pull delay is reported. *)
Lemma no_pull_delay_after_failed_pull :
  has_due 100 (receivers_of 10005 sample_failing) = true
  ∧ ∀ delayNs,
      NotePullDelay 10005 delayNs ∉ emitted sample_failing
                                       (OnAlarmFired sample_env 100 sample_failing).
Proof.
  split; [reflexivity |].
  intros delayNs Hin. vm_compute in Hin.
  repeat (apply elem_of_cons in Hin as [Hin | Hin]; [discriminate |]).
  by apply elem_of_nil in Hin.
Qed.

(** ** The deadline *)

Lemma elem_of_all_receivers st k r :
  (k, r) ∈ all_receivers st ↔ r ∈ receivers_of k st.
Proof.
  unfold all_receivers, receivers_of. rewrite list_elem_of_bind. split.
  - intros ([k' l] & Hin & HE). apply elem_of_entries in HE.
    apply list_elem_of_fmap in Hin as (r' & Heq & Hr'). simpl in *.
    inversion Heq; subst. by rewrite HE.
  - intros Hr. destruct (mReceivers st !! k) as [l|] eqn:Hl;
      [| by apply elem_of_nil in Hr].
    exists (k, l). split; [| by apply elem_of_entries].
    apply list_elem_of_fmap. by exists r.
Qed.

Lemma foldl_min_spec (V : list Z) : ∀ d,
  (foldl Z.min d V = d ∨ foldl Z.min d V ∈ V)
  ∧ foldl Z.min d V ≤ d
  ∧ (∀ x, x ∈ V → foldl Z.min d V ≤ x).
Proof.
  induction V as [|x V IH]; intros d; simpl.
  - split; [by left |]. split; [lia |]. by intros x ?%elem_of_nil.
  - destruct (IH (Z.min d x)) as (Hm & Hle & Hall).
    split; [| split].
    + destruct Hm as [Hm | Hm]; [| right; by right].
      destruct (Z.min_spec d x) as [[_ Hd] | [_ Hx]];
        [left; congruence | right; apply elem_of_cons; left; congruence].
    + lia.
    + intros y [-> | Hy]%elem_of_cons; [lia | by apply Hall].
Qed.

Lemma minimum_or_spec d l m :
  (∀ x, x ∈ l → x ≤ d) →
  m = minimum_or d l ↔ (m = d ∨ m ∈ l) ∧ m ≤ d ∧ (∀ x, x ∈ l → m ≤ x).
Proof.
  intros Hd. destruct l as [|x rest]; simpl.
  - split.
    + intros ->. split; [by left |]. split; [lia |]. by intros x ?%elem_of_nil.
    + intros ([-> | Hin] & _); [done | by apply elem_of_nil in Hin].
  - destruct (foldl_min_spec rest x) as (Hm & Hle & Hall).
    assert (Hin' : foldl Z.min x rest ∈ x :: rest).
    { destruct Hm as [-> | Hm]; [left | by right]. }
    assert (Hall' : ∀ y, y ∈ x :: rest → foldl Z.min x rest ≤ y).
    { intros y [-> | Hy]%elem_of_cons; [done | by apply Hall]. }
    split.
    + intros ->. split; [by right |]. split; [| done].
      specialize (Hd x ltac:(left)). lia.
    + intros ([-> | Hin] & Hmd & Hmall).
      * specialize (Hd _ Hin'). specialize (Hmall _ Hin'). lia.
      * specialize (Hall' _ Hin). specialize (Hmall _ Hin'). lia.
Qed.

Lemma elem_of_not_due_times t st x :
  x ∈ (entries (mReceivers st) ≫= λ pair, not_due_times t pair.2)
  ↔ ∃ k r, r ∈ receivers_of k st ∧ is_due t r = false ∧ x = nextPullTimeNs r.
Proof.
  rewrite list_elem_of_bind. unfold not_due_times. split.
  - intros ([k l] & Hx & HE). apply elem_of_entries in HE. simpl in Hx.
    apply list_elem_of_fmap in Hx as (r & -> & Hr).
    apply list_elem_of_filter in Hr as [Hd Hr].
    exists k, r. unfold receivers_of. by rewrite HE.
  - intros (k & r & Hr & Hd & ->). unfold receivers_of in Hr.
    destruct (mReceivers st !! k) as [l|] eqn:Hl; [| by apply elem_of_nil in Hr].
    exists (k, l). split; [| by apply elem_of_entries].
    simpl. apply list_elem_of_fmap. exists r. split; [done |].
    by apply list_elem_of_filter.
Qed.

Lemma elem_of_served_times env t st x :
  x ∈ (entries (mReceivers st) ≫= λ pair, served_times env t pair.1 pair.2)
  ↔ ∃ k r, r ∈ receivers_of k st ∧ served env t k r = true
           ∧ x = nextPullTimeNs (reschedule t r).
Proof.
  rewrite list_elem_of_bind. unfold served_times. split.
  - intros ([k l] & Hx & HE). apply elem_of_entries in HE. simpl in Hx.
    apply list_elem_of_fmap in Hx as (r & -> & Hr).
    apply list_elem_of_filter in Hr as [Hd Hr].
    exists k, r. unfold receivers_of. by rewrite HE.
  - intros (k & r & Hr & Hd & ->). unfold receivers_of in Hr.
    destruct (mReceivers st !! k) as [l|] eqn:Hl; [| by apply elem_of_nil in Hr].
    exists (k, l). split; [| by apply elem_of_entries].
    simpl. apply list_elem_of_fmap. exists r. split; [done |].
    by apply list_elem_of_filter.
Qed.

Lemma next_deadline_fold env t st :
  next_deadline env t st
  = foldl Z.min NO_ALARM_UPDATE
      ((entries (mReceivers st) ≫= λ pair, not_due_times t pair.2)
       ++ (entries (mReceivers st) ≫= λ pair, served_times env t pair.1 pair.2)).
Proof. unfold next_deadline. by rewrite foldl_app. Qed.

(** The times that the deadline of OnAlarmFired is the minimum of are the
    next pull times, after the call, of the records accounted for. *)
Lemma elem_of_accounted_times env t st x :
  x ∈ (entries (mReceivers st) ≫= λ pair, not_due_times t pair.2)
      ++ (entries (mReceivers st) ≫= λ pair, served_times env t pair.1 pair.2)
  ↔ x ∈ (λ kr, nextPullTimeNs kr.2)
          <$> filter (λ kr, accounted env t kr = true)
                (all_receivers (OnAlarmFired env t st)).
Proof.
  rewrite elem_of_app, elem_of_not_due_times, elem_of_served_times, list_elem_of_fmap.
  split.
  - intros [(k & r & Hr & Hd & ->) | (k & r & Hr & Hs & ->)].
    + exists (k, r). split; [done |]. apply list_elem_of_filter. split.
      * unfold accounted. simpl. by rewrite Hd.
      * apply elem_of_all_receivers. rewrite OnAlarmFired_receivers_of.
        apply list_elem_of_fmap. exists r. split; [| done].
        unfold catch_up, served. by rewrite Hd.
    + exists (k, reschedule t r). split; [done |]. apply list_elem_of_filter. split.
      * unfold accounted. simpl. unfold served in Hs.
        apply andb_true_iff in Hs as [_ ->]. by rewrite orb_true_r.
      * apply elem_of_all_receivers. rewrite OnAlarmFired_receivers_of.
        apply list_elem_of_fmap. exists r. split; [| done].
        unfold catch_up. by rewrite Hs.
  - intros ([k r'] & -> & Hin). apply list_elem_of_filter in Hin as [Hacc Hin].
    apply elem_of_all_receivers in Hin. rewrite OnAlarmFired_receivers_of in Hin.
    apply list_elem_of_fmap in Hin as (r & -> & Hr). simpl.
    unfold accounted in Hacc. simpl in Hacc. rewrite catch_up_receiver in Hacc.
    unfold catch_up in *. destruct (served env t k r) eqn:Hs.
    + right. by exists k, r.
    + left. exists k, r. split; [done |]. split; [| done].
      unfold served in Hs. destruct (is_due t r); [| done].
      simpl in *. congruence.
Qed.

Lemma catch_up_in_range env t k r :
  int64_range (nextPullTimeNs r) → int64_range (nextPullTimeNs (catch_up env t k r)).
Proof.
  intros Hr. unfold catch_up. destruct (served env t k r); [| done].
  apply wrap64_range.
Qed.

Lemma times_in_range_OnAlarmFired env t st :
  times_in_range st → times_in_range (OnAlarmFired env t st).
Proof.
  intros Hst [k r'] Hin. apply elem_of_all_receivers in Hin.
  rewrite OnAlarmFired_receivers_of in Hin.
  apply list_elem_of_fmap in Hin as (r & -> & Hr). simpl.
  apply catch_up_in_range. apply (Hst (k, r)). by apply elem_of_all_receivers.
Qed.

Lemma deadline_OnAlarmFired env t st :
  times_in_range st →
  mNextPullTimeNs (OnAlarmFired env t st)
  = minimum_or NO_ALARM_UPDATE
      ((λ kr, nextPullTimeNs kr.2)
         <$> filter (λ kr, accounted env t kr = true)
               (all_receivers (OnAlarmFired env t st))).
Proof.
  intros Hst.
  rewrite (proj1 (proj2 (proj2 (OnAlarmFired_spec env t st)))), next_deadline_fold.
  apply minimum_or_spec.
  - intros x (kr & -> & Hin)%list_elem_of_fmap.
    apply list_elem_of_filter in Hin as [_ Hin].
    apply (times_in_range_OnAlarmFired env t st Hst kr Hin).
  - match goal with |- context [foldl Z.min ?d ?V] =>
      destruct (foldl_min_spec V d) as (Hm & Hle & Hall) end.
    split; [| split; [done |]].
    + destruct Hm as [Hm | Hm]; [by left | right].
      by apply elem_of_accounted_times.
    + intros x Hx. apply Hall. by apply elem_of_accounted_times.
Qed.

Lemma elem_of_all_receivers_RegisterReceiver tagId rcv next interval st k r :
  ¬ subscribed tagId rcv st →
  (k, r) ∈ all_receivers (RegisterReceiver tagId rcv next interval st)
  ↔ (k, r) ∈ all_receivers st
    ∨ (k = tagId ∧ r = mkReceiverInfo next (roundedIntervalNs interval) rcv).
Proof.
  intros Hn. rewrite !elem_of_all_receivers.
  destruct (decide (k = tagId)) as [-> | Hne].
  - rewrite receivers_of_RegisterReceiver_new by done.
    rewrite elem_of_app, list_elem_of_singleton. tauto.
  - rewrite receivers_of_RegisterReceiver_ne by done. tauto.
Qed.

Lemma times_in_range_RegisterReceiver tagId rcv next interval st :
  int64_range next → times_in_range st →
  times_in_range (RegisterReceiver tagId rcv next interval st).
Proof.
  intros Hnext Hst. destruct (decide (subscribed tagId rcv st)) as [Hs | Hn].
  - by rewrite RegisterReceiver_known.
  - intros [k r] Hin. apply elem_of_all_receivers_RegisterReceiver in Hin; [| done].
    destruct Hin as [Hin | [-> ->]]; [by apply (Hst (k, r)) | done].
Qed.

Lemma deadline_RegisterReceiver tagId rcv next interval st :
  int64_range next → times_in_range st →
  deadline_is_minimum st →
  deadline_is_minimum (RegisterReceiver tagId rcv next interval st).
Proof.
  intros Hnext Hst Hmin. destruct (decide (subscribed tagId rcv st)) as [Hs | Hn].
  { by rewrite RegisterReceiver_known. }
  unfold deadline_is_minimum in *.
  apply minimum_or_spec in Hmin as (Hm & Hle & Hall).
  2: { intros x (kr & -> & Hin)%list_elem_of_fmap. apply (Hst kr Hin). }
  rewrite (proj2 (RegisterReceiver_new tagId rcv next interval st Hn)).
  apply minimum_or_spec.
  - intros x (kr & -> & Hin)%list_elem_of_fmap.
    apply (times_in_range_RegisterReceiver tagId rcv next interval st Hnext Hst kr Hin).
  - split; [| split].
    + destruct (Z.min_spec (mNextPullTimeNs st) next) as [[Hlt ->] | [Hge ->]].
      * destruct Hm as [Hm | (kr & Heq & Hin)%list_elem_of_fmap]; [by left | right].
        apply list_elem_of_fmap. exists kr. split; [done |]. destruct kr as [k r].
        apply elem_of_all_receivers_RegisterReceiver; [done | by left].
      * right. apply list_elem_of_fmap.
        exists (tagId, mkReceiverInfo next (roundedIntervalNs interval) rcv).
        split; [done |]. apply elem_of_all_receivers_RegisterReceiver; [done | by right].
    + lia.
    + intros x ([k r] & -> & Hin)%list_elem_of_fmap.
      apply elem_of_all_receivers_RegisterReceiver in Hin; [| done].
      destruct Hin as [Hin | [-> ->]]; simpl; [| lia].
      assert (mNextPullTimeNs st ≤ nextPullTimeNs r); [| lia].
      apply Hall. apply list_elem_of_fmap. by exists (k, r).
Qed.

Lemma all_receivers_same st st' :
  mReceivers st' = mReceivers st → all_receivers st' = all_receivers st.
Proof. unfold all_receivers. by intros ->. Qed.

Lemma deadline_is_minimum_same st st' :
  mReceivers st' = mReceivers st → mNextPullTimeNs st' = mNextPullTimeNs st →
  deadline_is_minimum st → deadline_is_minimum st'.
Proof.
  unfold deadline_is_minimum. intros Hm ->. by rewrite (all_receivers_same _ _ Hm).
Qed.

Lemma times_in_range_same st st' :
  mReceivers st' = mReceivers st → times_in_range st → times_in_range st'.
Proof. unfold times_in_range. intros Hm. by rewrite (all_receivers_same _ _ Hm). Qed.

Lemma accounted_catch_up env t k r :
  accounted env t (k, r) = true → accounted env t (k, catch_up env t k r) = true.
Proof.
  unfold accounted, catch_up, served. simpl.
  destruct (is_due t r) eqn:Hd; simpl.
  - intros Hp. rewrite Hp. simpl. by destruct (is_due t (reschedule t r)).
  - intros _. by rewrite Hd.
Qed.

Lemma filter_all {A} (P : A → Prop) `{∀ x, Decision (P x)} (l : list A) :
  (∀ x, x ∈ l → P x) → filter P l = l.
Proof.
  induction l as [|x l IH]; intros Hall; [done |].
  rewrite filter_cons_True by (apply Hall; left).
  f_equal. apply IH. intros y Hy. apply Hall. by right.
Qed.

Lemma deadline_OnAlarmFired_all env t st :
  times_in_range st →
  (∀ kr, kr ∈ all_receivers st → accounted env t kr = true) →
  deadline_is_minimum (OnAlarmFired env t st).
Proof.
  intros Hst Hacc. unfold deadline_is_minimum.
  rewrite (deadline_OnAlarmFired env t st Hst). do 2 f_equal.
  apply filter_all. intros [k r'] Hin.
  apply elem_of_all_receivers in Hin. rewrite OnAlarmFired_receivers_of in Hin.
  apply list_elem_of_fmap in Hin as (r & -> & Hr).
  apply accounted_catch_up. apply Hacc. by apply elem_of_all_receivers.
Qed.

Lemma deadline_is_lower_bound_UnRegisterReceiver tagId rcv st :
  deadline_is_lower_bound st → deadline_is_lower_bound (UnRegisterReceiver tagId rcv st).
Proof.
  intros Hlb [k r] Hin. rewrite mNextPullTimeNs_UnRegisterReceiver.
  apply Hlb. apply elem_of_all_receivers in Hin. apply elem_of_all_receivers.
  rewrite receivers_of_UnRegisterReceiver in Hin.
  case_decide; [by eapply elem_of_erase_first | done].
Qed.

Lemma deadline_is_minimum_initial table : deadline_is_minimum (initial table).
Proof. reflexivity. Qed.

Lemma times_in_range_initial table : times_in_range (initial table).
Proof.
  intros [k r] Hin. apply elem_of_all_receivers in Hin.
  unfold receivers_of in Hin. simpl in Hin. rewrite lookup_empty in Hin.
  by apply elem_of_nil in Hin.
Qed.

Lemma run_deadline_is_minimum isV dcd dto ops : ∀ st,
  times_in_range st → deadline_is_minimum st →
  run_keeps_minimum isV dcd dto ops st →
  times_in_range (run isV dcd dto ops st) ∧ deadline_is_minimum (run isV dcd dto ops st).
Proof.
  induction ops as [|op ops IH]; intros st Hst Hmin Hok; [done |].
  destruct Hok as [Hop Hok]. unfold run. cbn [foldl]. apply IH; [| | done].
  - pose proof (exec_registry isV dcd dto op st) as Hreg.
    destruct op; cbn [exec keeps_minimum] in *;
      lazymatch type of Hreg with
      | True => idtac
      | _ => destruct Hreg as [Hm _]; by apply (times_in_range_same st)
      end.
    + by apply times_in_range_RegisterReceiver.
    + done.
    + by apply times_in_range_OnAlarmFired.
  - pose proof (exec_registry isV dcd dto op st) as Hreg.
    destruct op; cbn [exec keeps_minimum] in *;
      lazymatch type of Hreg with
      | True => idtac
      | _ => destruct Hreg as [Hm Hn]; by apply (deadline_is_minimum_same st)
      end.
    + by apply deadline_RegisterReceiver.
    + done.
    + by apply deadline_OnAlarmFired_all.
Qed.

(** C1, as the code has it: mNextPullTimeNs is the minimum of the next pull
    times of all records (NO_ALARM_UPDATE when there is none) after every
    run of operations from the initial state in which nothing is
    unregistered and every due receiver can be promoted when an alarm fires.
    Operation by operation: after OnAlarmFired it is the minimum over the
    records other than the due ones whose receiver could not be promoted;
    RegisterReceiver keeps it the minimum over all records;
    UnRegisterReceiver does not change it, so that it stays a lower bound of
    the next pull times of the records that are left. *)
Theorem deadline_after_operations
    (isVendorPulledAtom : Z → bool) (defaultCoolDownNs defaultPullTimeoutNs : Z) :
  (∀ table ops,
     run_keeps_minimum isVendorPulledAtom defaultCoolDownNs defaultPullTimeoutNs
       ops (initial table) →
     deadline_is_minimum
       (run isVendorPulledAtom defaultCoolDownNs defaultPullTimeoutNs ops (initial table)))
  ∧ (∀ env t st,
       times_in_range st →
       mNextPullTimeNs (OnAlarmFired env t st)
       = minimum_or NO_ALARM_UPDATE
           ((λ kr, nextPullTimeNs kr.2)
              <$> filter (λ kr, accounted env t kr = true)
                    (all_receivers (OnAlarmFired env t st))))
  ∧ (∀ tagId rcv next interval st,
       int64_range next → times_in_range st →
       deadline_is_minimum st →
       deadline_is_minimum (RegisterReceiver tagId rcv next interval st))
  ∧ (∀ tagId rcv st,
       mNextPullTimeNs (UnRegisterReceiver tagId rcv st) = mNextPullTimeNs st
       ∧ (deadline_is_lower_bound st →
          deadline_is_lower_bound (UnRegisterReceiver tagId rcv st))).
Proof.
  split; [| split; [| split]].
  - intros table ops Hok.
    apply (run_deadline_is_minimum _ _ _ ops (initial table)); [| | done].
    + apply times_in_range_initial.
    + apply deadline_is_minimum_initial.
  - apply deadline_OnAlarmFired.
  - apply deadline_RegisterReceiver.
  - intros tagId rcv st. split.
    + apply mNextPullTimeNs_UnRegisterReceiver.
    + apply deadline_is_lower_bound_UnRegisterReceiver.
Qed.

Lemma deadline_after_operations_witness :
  deadline_is_minimum
    (run sample_isVendorPulledAtom 0 0
       [OpRegisterReceiver 10005 1%nat 0 (60 * NS_PER_SEC);
        OpOnAlarmFired sample_env (185 * NS_PER_SEC)]
       (initial sample_table)).
Proof.
  apply (proj1 (deadline_after_operations sample_isVendorPulledAtom 0 0)).
  cbn [run_keeps_minimum keeps_minimum]. split; [| split; [| exact I]].
  - unfold int64_range, INT64_MIN, INT64_MAX. lia.
  - intros kr _. unfold accounted. apply orb_true_r.
Defined.

(** C1, as stated, fails in two ways. After the only receiver is
    unregistered, mNextPullTimeNs is still the time of that receiver and not
    NO_ALARM_UPDATE; and after an alarm at which the receiver 9, due at 50,
    cannot be promoted, mNextPullTimeNs is the new time of the receiver 4
    although the record of 9 is still there with the time 50. *)
Lemma deadline_is_not_always_minimum :
  ¬ deadline_is_minimum (UnRegisterReceiver 10005 1%nat sample_subscribed)
  ∧ ¬ deadline_is_minimum (OnAlarmFired sample_env_gone 100 sample_two).
Proof.
  split; intros H; vm_compute in H; discriminate.
Qed.

Lemma single_pull_per_tag_witness :
  OnDataPulled 10005 4%nat
    (stamp sample_env_gone 100 <$> (PullLocked 10005 [] sample_two).1.2)
    (PullLocked 10005 [] sample_two).1.1 100
  ∈ emitted sample_two (OnAlarmFired sample_env_gone 100 sample_two).
Proof.
  apply (proj1 (proj2 (proj2 (proj2
                  (single_pull_per_tag sample_env_gone 100 sample_two 10005))))
           1%nat (mkReceiverInfo 50 (120 * NS_PER_SEC) 4%nat)).
  - reflexivity.
  - simpl. lia.
  - reflexivity.
Defined.

Lemma pull_delay_reported_on_success_witness :
  NotePullDelay 10005 30
  ∈ emitted sample_subscribed (OnAlarmFired sample_env (185 * NS_PER_SEC) sample_subscribed).
Proof.
  apply (proj2 (pull_delay_reported_on_success sample_env (185 * NS_PER_SEC)
                  sample_subscribed 10005 30)).
  split; [reflexivity |]. split; reflexivity.
Defined.

(** ** The stored intervals *)

Lemma roundedIntervalNs_minute interval : 60 * NS_PER_SEC ≤ roundedIntervalNs interval.
Proof.
  unfold roundedIntervalNs.
  rewrite (wrap64_id (60 * NS_PER_SEC))
    by (unfold int64_range, INT64_MIN, INT64_MAX, NS_PER_SEC; lia).
  case_bool_decide; lia.
Qed.

(** Every interval in the registry is at least one minute, whatever was
    asked for: the interval of a record is the one RegisterReceiver stored. *)
Lemma intervals_rounded_run isV dcd dto ops table :
  intervals_rounded (run isV dcd dto ops (initial table)).
Proof.
  assert (Hinit : intervals_rounded (initial table)).
  { intros [k r] Hin. apply elem_of_all_receivers in Hin.
    unfold receivers_of in Hin. simpl in Hin. rewrite lookup_empty in Hin.
    by apply elem_of_nil in Hin. }
  revert Hinit. generalize (initial table) as st.
  induction ops as [|op ops IH]; intros st Hst; [done |].
  unfold run. cbn [foldl]. apply IH.
  pose proof (exec_registry isV dcd dto op st) as Hreg.
  destruct op; cbn [exec] in *;
    lazymatch type of Hreg with
    | True => idtac
    | _ => destruct Hreg as [Hm _]; unfold intervals_rounded;
           by rewrite (all_receivers_same _ _ Hm)
    end.
  - destruct (decide (subscribed tagId rcv st)) as [Hs | Hn].
    + by rewrite RegisterReceiver_known.
    + intros [k r] Hin. apply elem_of_all_receivers_RegisterReceiver in Hin; [| done].
      destruct Hin as [Hin | [-> ->]]; [by apply (Hst (k, r)) |].
      apply roundedIntervalNs_minute.
  - intros [k r] Hin. apply (Hst (k, r)).
    apply elem_of_all_receivers in Hin. apply elem_of_all_receivers.
    rewrite receivers_of_UnRegisterReceiver in Hin.
    case_decide; [by eapply elem_of_erase_first | done].
  - intros [k r'] Hin. apply elem_of_all_receivers in Hin.
    rewrite OnAlarmFired_receivers_of in Hin.
    apply list_elem_of_fmap in Hin as (r & -> & Hr). simpl.
    rewrite catch_up_intervalNs. apply (Hst (k, r)). by apply elem_of_all_receivers.
Qed.

(** * Further properties of the manager *)

(** ** What the operations emit *)

Lemma foldl_emit_effects {A} (f : A → Effect) (l : list A) : ∀ st,
  effects (foldl (λ s x, emit (f x) s) st l) = effects st ++ (f <$> l).
Proof.
  induction l as [|x l IH]; intros st; simpl; [by rewrite app_nil_r |].
  rewrite IH. simpl. by rewrite <- app_assoc.
Qed.

Lemma foldl_count_emit_split {A} (g : Z → A → Z) (f : A → Effect) (l : list A) :
  ∀ total st,
  foldl (λ '(totalCleared, s) x, (g totalCleared x, emit (f x) s)) (total, st) l
  = (foldl g total l, foldl (λ s x, emit (f x) s) st l).
Proof.
  induction l as [|x l IH]; intros total st; simpl; [done |]. by rewrite IH.
Qed.

Lemma wrap32_add_l a b : wrap32 (wrap32 a + b) = wrap32 (a + b).
Proof.
  unfold wrap32.
  set (X := (a + 2 ^ 31) `mod` 2 ^ 32).
  replace (X - 2 ^ 31 + b + 2 ^ 31) with (X + b) by lia.
  unfold X. rewrite Zplus_mod_idemp_l.
  replace (a + 2 ^ 31 + b) with (a + b + 2 ^ 31) by lia. done.
Qed.

Lemma foldl_wrap32_sum {A} (a : A → Z) (l : list A) : ∀ total,
  foldl (λ totalCleared x, wrap32 (totalCleared + a x)) (wrap32 total) l
  = wrap32 (total + sum_counts (a <$> l)).
Proof.
  induction l as [|x l IH]; intros total.
  - cbn [foldl fmap list_fmap sum_counts foldr]. by rewrite Z.add_0_r.
  - cbn [foldl]. rewrite wrap32_add_l, IH, fmap_cons.
    cbn [sum_counts foldr]. by rewrite Z.add_assoc.
Qed.

Lemma alarm_effects_None d : alarm_effects d None = [].
Proof. unfold alarm_effects. by case_bool_decide. Qed.

Lemma effect_tag_not_alarm e k : effect_tag e = Some k → is_alarm e = false.
Proof. by destruct e. Qed.

Lemma PullLocked_effects tagId data st :
  effects (PullLocked tagId data st).2
  = effects st
    ++ match kAllPullAtomInfo st !! tagId with
       | Some info =>
           PullerPull tagId ::
             (if (pullAnswer (puller info) (pullCalls (puller info)) data).1
              then [] else [NotePullFailed tagId])
       | None => []
       end
  ∧ mStatsCompanionService (PullLocked tagId data st).2 = mStatsCompanionService st.
Proof.
  unfold PullLocked. destruct (kAllPullAtomInfo st !! tagId) as [info|];
    [| by rewrite app_nil_r].
  destruct (pullAnswer (puller info) (pullCalls (puller info)) data) as [[] out];
    simpl; rewrite <- ?app_assoc; done.
Qed.

(** ** The caches *)

Lemma clear_caches_spec (a : PullAtomInfo → Z) (f : Z * PullAtomInfo → Effect) st :
  foldl (λ '(totalCleared, s) pulledAtom,
           (wrap32 (totalCleared + a pulledAtom.2), emit (f pulledAtom) s))
        (0, st) (entries (kAllPullAtomInfo st))
  = (wrap32 (sum_counts ((λ pulledAtom, a pulledAtom.2) <$> entries (kAllPullAtomInfo st))),
     foldl (λ s pulledAtom, emit (f pulledAtom) s) st (entries (kAllPullAtomInfo st))).
Proof.
  rewrite (foldl_count_emit_split
             (λ totalCleared (pulledAtom : Z * PullAtomInfo),
                wrap32 (totalCleared + a pulledAtom.2)) f).
  f_equal. change 0 with (wrap32 0) at 1.
  by rewrite (foldl_wrap32_sum (λ pulledAtom : Z * PullAtomInfo, a pulledAtom.2)).
Qed.

Global Instance key_le_total {A} : Total (@key_le A).
Proof. intros a b. unfold key_le. lia. Qed.

(** The entries of a map are visited in ascending order of the keys. *)
Lemma entries_sorted {A} (m : gmap Z A) : Sorted key_le (entries m).
Proof. unfold entries. apply Sorted_merge_sort. apply _. Qed.

Lemma sum_counts_nonneg l : (∀ x, x ∈ l → 0 ≤ x) → 0 ≤ sum_counts l.
Proof.
  induction l as [|x l IH]; intros Hall; cbn [sum_counts foldr]; [done |].
  specialize (Hall x ltac:(left)) as Hx.
  assert (0 ≤ sum_counts l); [| unfold sum_counts in *; lia].
  apply IH. intros y Hy. apply Hall. by right.
Qed.

(** X1: ForceClearPullerCache calls ForceClearCache once on every registered
    puller, in ascending order of the tags, and returns the sum of the
    answers as an [int]: the sum itself when the answers are not negative
    and their sum fits. It changes nothing of the manager. *)
Theorem force_clear_puller_cache_sum st :
  (ForceClearPullerCache st).1
  = wrap32 (sum_counts ((λ pulledAtom, forceClearCacheAnswer (puller pulledAtom.2))
                          <$> entries (kAllPullAtomInfo st)))
  ∧ emitted st (ForceClearPullerCache st).2
    = (λ pulledAtom, PullerForceClearCache pulledAtom.1) <$> entries (kAllPullAtomInfo st)
  ∧ kAllPullAtomInfo (ForceClearPullerCache st).2 = kAllPullAtomInfo st
  ∧ mReceivers (ForceClearPullerCache st).2 = mReceivers st
  ∧ mNextPullTimeNs (ForceClearPullerCache st).2 = mNextPullTimeNs st
  ∧ mStatsCompanionService (ForceClearPullerCache st).2 = mStatsCompanionService st
  ∧ ((∀ k info, kAllPullAtomInfo st !! k = Some info →
               0 ≤ forceClearCacheAnswer (puller info)) →
     sum_counts ((λ pulledAtom, forceClearCacheAnswer (puller pulledAtom.2))
                   <$> entries (kAllPullAtomInfo st)) ≤ 2147483647 →
     (ForceClearPullerCache st).1
     = sum_counts ((λ pulledAtom, forceClearCacheAnswer (puller pulledAtom.2))
                     <$> entries (kAllPullAtomInfo st))).
Proof.
  unfold ForceClearPullerCache.
  rewrite (clear_caches_spec (λ info, forceClearCacheAnswer (puller info))
             (λ pulledAtom, PullerForceClearCache pulledAtom.1) st).
  cbn [fst snd].
  destruct (foldl_emit_fields (λ pulledAtom : Z * PullAtomInfo,
              PullerForceClearCache pulledAtom.1) (entries (kAllPullAtomInfo st)) st)
    as (H1 & H2 & H3 & H4).
  split; [done |]. split; [| split; [done | split; [done | split; [done | split; [done |]]]]].
  - apply emitted_app. apply foldl_emit_effects.
  - intros Hpos Hfit. apply wrap32_id. split; [| done].
    etrans; [| apply sum_counts_nonneg]; [lia |].
    intros x ([k info] & -> & Hin)%list_elem_of_fmap.
    apply elem_of_entries in Hin. by eapply Hpos.
Qed.

Lemma force_clear_puller_cache_sum_witness :
  (ForceClearPullerCache sample_caches).1 = 7.
Proof.
  rewrite (proj2 (proj2 (proj2 (proj2 (proj2 (proj2
             (force_clear_puller_cache_sum sample_caches))))))).
  - reflexivity.
  - intros k info Hk. unfold sample_caches, initial in Hk. simpl in Hk.
    destruct (decide (k = 10005)) as [-> | Hne].
    + rewrite lookup_insert_eq in Hk. inversion Hk; subst. simpl. lia.
    + rewrite lookup_insert_ne in Hk by done.
      apply lookup_singleton_Some in Hk as [_ <-]. simpl. lia.
  - vm_compute. discriminate.
Defined.

(** X2: ClearPullerCacheIfNecessary hands the timestamp it is given to
    ClearCacheIfNecessary of every registered puller, once each and in
    ascending order of the tags, and returns the sum of the answers as an
    [int]: the sum itself when the answers are not negative and their sum
    fits. It changes nothing of the manager. *)
Theorem clear_puller_cache_if_necessary_sum timestampNs st :
  (ClearPullerCacheIfNecessary timestampNs st).1
  = wrap32 (sum_counts
              ((λ pulledAtom, clearCacheIfNecessaryAnswer (puller pulledAtom.2) timestampNs)
                 <$> entries (kAllPullAtomInfo st)))
  ∧ emitted st (ClearPullerCacheIfNecessary timestampNs st).2
    = (λ pulledAtom, PullerClearCacheIfNecessary pulledAtom.1 timestampNs)
        <$> entries (kAllPullAtomInfo st)
  ∧ kAllPullAtomInfo (ClearPullerCacheIfNecessary timestampNs st).2 = kAllPullAtomInfo st
  ∧ mReceivers (ClearPullerCacheIfNecessary timestampNs st).2 = mReceivers st
  ∧ mNextPullTimeNs (ClearPullerCacheIfNecessary timestampNs st).2 = mNextPullTimeNs st
  ∧ mStatsCompanionService (ClearPullerCacheIfNecessary timestampNs st).2
    = mStatsCompanionService st
  ∧ ((∀ k info, kAllPullAtomInfo st !! k = Some info →
               0 ≤ clearCacheIfNecessaryAnswer (puller info) timestampNs) →
     sum_counts
       ((λ pulledAtom, clearCacheIfNecessaryAnswer (puller pulledAtom.2) timestampNs)
          <$> entries (kAllPullAtomInfo st)) ≤ 2147483647 →
     (ClearPullerCacheIfNecessary timestampNs st).1
     = sum_counts
         ((λ pulledAtom, clearCacheIfNecessaryAnswer (puller pulledAtom.2) timestampNs)
            <$> entries (kAllPullAtomInfo st))).
Proof.
  unfold ClearPullerCacheIfNecessary.
  rewrite (clear_caches_spec (λ info, clearCacheIfNecessaryAnswer (puller info) timestampNs)
             (λ pulledAtom, PullerClearCacheIfNecessary pulledAtom.1 timestampNs) st).
  cbn [fst snd].
  destruct (foldl_emit_fields (λ pulledAtom : Z * PullAtomInfo,
              PullerClearCacheIfNecessary pulledAtom.1 timestampNs)
              (entries (kAllPullAtomInfo st)) st)
    as (H1 & H2 & H3 & H4).
  split; [done |]. split; [| split; [done | split; [done | split; [done | split; [done |]]]]].
  - apply emitted_app. apply foldl_emit_effects.
  - intros Hpos Hfit. apply wrap32_id. split; [| done].
    etrans; [| apply sum_counts_nonneg]; [lia |].
    intros x ([k info] & -> & Hin)%list_elem_of_fmap.
    apply elem_of_entries in Hin. by eapply Hpos.
Qed.

Lemma clear_puller_cache_if_necessary_sum_witness :
  (ClearPullerCacheIfNecessary 3 sample_caches).1 = 6.
Proof.
  rewrite (proj2 (proj2 (proj2 (proj2 (proj2 (proj2
             (clear_puller_cache_if_necessary_sum 3 sample_caches))))))).
  - reflexivity.
  - intros k info Hk. unfold sample_caches, initial in Hk. simpl in Hk.
    destruct (decide (k = 10005)) as [-> | Hne].
    + rewrite lookup_insert_eq in Hk. inversion Hk; subst. simpl. lia.
    + rewrite lookup_insert_ne in Hk by done.
      apply lookup_singleton_Some in Hk as [_ <-]. simpl. lia.
  - vm_compute. discriminate.
Defined.

(** ** The alarm service *)

Lemma SetStatsCompanionService_spec s st :
  kAllPullAtomInfo (SetStatsCompanionService s st) = kAllPullAtomInfo st
  ∧ mReceivers (SetStatsCompanionService s st) = mReceivers st
  ∧ mNextPullTimeNs (SetStatsCompanionService s st) = mNextPullTimeNs st
  ∧ mStatsCompanionService (SetStatsCompanionService s st) = s
  ∧ effects (SetStatsCompanionService s st)
    = effects st
      ++ ((λ pulledAtom, PullerSetStatsCompanionService pulledAtom.1 s)
            <$> entries (kAllPullAtomInfo st))
      ++ alarm_effects (mNextPullTimeNs st) s.
Proof.
  unfold SetStatsCompanionService.
  set (f := λ pulledAtom : Z * PullAtomInfo, PullerSetStatsCompanionService pulledAtom.1 s).
  set (st1 := set_mStatsCompanionService s st).
  change (foldl _ st1 (entries (kAllPullAtomInfo st1)))
    with (foldl (λ s1 x, emit (f x) s1) st1 (entries (kAllPullAtomInfo st))).
  destruct (foldl_emit_fields f (entries (kAllPullAtomInfo st)) st1) as (H1 & H2 & H3 & H4).
  pose proof (foldl_emit_effects f (entries (kAllPullAtomInfo st)) st1) as H5.
  set (st2 := foldl (λ s1 x, emit (f x) s1) st1 (entries (kAllPullAtomInfo st))) in *.
  simpl in H1, H2, H3, H4, H5. rewrite H4.
  destruct s as [svc|].
  - rewrite kAllPullAtomInfo_updateAlarmLocked, mReceivers_updateAlarmLocked,
      mNextPullTimeNs_updateAlarmLocked, mStatsCompanionService_updateAlarmLocked,
      effects_updateAlarmLocked.
    rewrite H1, H2, H3, H4, H5, <- app_assoc. done.
  - rewrite H1, H2, H3, H4, H5, alarm_effects_None, app_nil_r. done.
Qed.



Lemma force_clear_fields st :
  mReceivers (ForceClearPullerCache st).2 = mReceivers st
  ∧ mStatsCompanionService (ForceClearPullerCache st).2 = mStatsCompanionService st
  ∧ effects (ForceClearPullerCache st).2
    = effects st
      ++ ((λ pulledAtom, PullerForceClearCache pulledAtom.1)
            <$> entries (kAllPullAtomInfo st)).
Proof.
  unfold ForceClearPullerCache.
  rewrite (clear_caches_spec (λ info, forceClearCacheAnswer (puller info))
             (λ pulledAtom, PullerForceClearCache pulledAtom.1) st).
  cbn [fst snd].
  destruct (foldl_emit_fields (λ pulledAtom : Z * PullAtomInfo,
              PullerForceClearCache pulledAtom.1) (entries (kAllPullAtomInfo st)) st)
    as (_ & H2 & _ & H4).
  split; [done |]. split; [done |]. apply foldl_emit_effects.
Qed.

Lemma clear_if_necessary_fields timestampNs st :
  mReceivers (ClearPullerCacheIfNecessary timestampNs st).2 = mReceivers st
  ∧ mStatsCompanionService (ClearPullerCacheIfNecessary timestampNs st).2
    = mStatsCompanionService st
  ∧ effects (ClearPullerCacheIfNecessary timestampNs st).2
    = effects st
      ++ ((λ pulledAtom, PullerClearCacheIfNecessary pulledAtom.1 timestampNs)
            <$> entries (kAllPullAtomInfo st)).
Proof.
  unfold ClearPullerCacheIfNecessary.
  rewrite (clear_caches_spec (λ info, clearCacheIfNecessaryAnswer (puller info) timestampNs)
             (λ pulledAtom, PullerClearCacheIfNecessary pulledAtom.1 timestampNs) st).
  cbn [fst snd].
  destruct (foldl_emit_fields (λ pulledAtom : Z * PullAtomInfo,
              PullerClearCacheIfNecessary pulledAtom.1 timestampNs)
              (entries (kAllPullAtomInfo st)) st)
    as (_ & H2 & _ & H4).
  split; [done |]. split; [done |]. apply foldl_emit_effects.
Qed.

Lemma dispatch_effects_not_alarm env t st e :
  e ∈ dispatch_effects env t st → is_alarm e = false.
Proof.
  intros (k & l & _ & He)%elem_of_dispatch_effects.
  eapply effect_tag_not_alarm. by eapply tag_effects_tag.
Qed.

(** While no service is there, an operation that does not bring one leaves
    it so and sets no alarm. *)
Lemma exec_without_service isV dcd dto op st :
  mStatsCompanionService st = None →
  is_connect op = false →
  mStatsCompanionService (exec isV dcd dto op st) = None
  ∧ ∃ evs, effects (exec isV dcd dto op st) = effects st ++ evs
           ∧ ∀ e, e ∈ evs → is_alarm e = false.
Proof.
  intros Hnone Hop. destruct op; cbn [exec].
  - destruct (PullLocked_effects tagId data st) as [He Hs]. unfold Pull.
    split; [by rewrite Hs |]. eexists. split; [exact He |].
    intros e Hin. destruct (kAllPullAtomInfo st !! tagId); [| by apply elem_of_nil in Hin].
    apply elem_of_cons in Hin as [-> | Hin]; [done |].
    destruct (pullAnswer _ _ _).1; [by apply elem_of_nil in Hin |].
    by apply list_elem_of_singleton in Hin as ->.
  - destruct statsCompanionService; [discriminate |].
    destruct (SetStatsCompanionService_spec None st) as (_ & _ & _ & Hs & He).
    split; [done |]. eexists. split; [exact He |].
    rewrite alarm_effects_None, app_nil_r.
    by intros e (p & -> & _)%list_elem_of_fmap.
  - destruct (decide (subscribed tagId rcv st)) as [Hs | Hn].
    + rewrite RegisterReceiver_known by done. split; [done |].
      exists []. split; [by rewrite app_nil_r | by intros e ?%elem_of_nil].
    + unfold RegisterReceiver. fold (receivers_of tagId st).
      rewrite (not_registered _ _ _ Hn). simpl. case_bool_decide.
      * rewrite mStatsCompanionService_updateAlarmLocked, effects_updateAlarmLocked. simpl.
        split; [done |]. rewrite Hnone, alarm_effects_None.
        exists []. split; [done | by intros e ?%elem_of_nil].
      * simpl. split; [done |].
        exists []. split; [by rewrite app_nil_r | by intros e ?%elem_of_nil].
  - unfold UnRegisterReceiver. destruct (mReceivers st !! tagId); simpl;
      (split; [done |]); exists []; (split; [by rewrite app_nil_r | by intros e ?%elem_of_nil]).
  - destruct (OnAlarmFired_spec env elapsedTimeNs st) as (_ & _ & _ & Hs & He).
    split; [by rewrite Hs |]. eexists. split; [exact He |].
    rewrite Hnone, alarm_effects_None, app_nil_r. apply dispatch_effects_not_alarm.
  - destruct (proj2 (force_clear_fields st)) as [Hs He].
    split; [by rewrite Hs |]. eexists. split; [exact He |].
    by intros e (p & -> & _)%list_elem_of_fmap.
  - destruct (proj2 (clear_if_necessary_fields timestampNs st)) as [Hs He].
    split; [by rewrite Hs |]. eexists. split; [exact He |].
    by intros e (p & -> & _)%list_elem_of_fmap.
  - unfold RegisterPullerCallback. destruct (isV atomTag); simpl; (split; [done |]).
    + eexists. split; [reflexivity |]. by intros e ->%list_elem_of_singleton.
    + exists []. split; [by rewrite app_nil_r | by intros e ?%elem_of_nil].
  - simpl. split; [done |]. eexists. split; [reflexivity |].
    by intros e ->%list_elem_of_singleton.
  - unfold UnregisterPullerCallback. destruct (isV atomTag); simpl; (split; [done |]).
    + eexists. split; [reflexivity |]. by intros e ->%list_elem_of_singleton.
    + exists []. split; [by rewrite app_nil_r | by intros e ?%elem_of_nil].
  - simpl. split; [done |]. eexists. split; [reflexivity |].
    by intros e ->%list_elem_of_singleton.
Qed.

Lemma run_without_service isV dcd dto ops : ∀ st,
  mStatsCompanionService st = None →
  Forall (λ op, is_connect op = false) ops →
  mStatsCompanionService (run isV dcd dto ops st) = None
  ∧ ∃ evs, effects (run isV dcd dto ops st) = effects st ++ evs
           ∧ ∀ e, e ∈ evs → is_alarm e = false.
Proof.
  induction ops as [|op ops IH]; intros st Hnone Hops.
  - split; [done |]. exists []. split; [by rewrite app_nil_r | by intros e ?%elem_of_nil].
  - apply Forall_cons in Hops as [Hop Hops].
    destruct (exec_without_service isV dcd dto op st Hnone Hop) as (Hs & evs1 & He1 & Ha1).
    unfold run. cbn [foldl].
    destruct (IH (exec isV dcd dto op st) Hs Hops) as (Hs' & evs2 & He2 & Ha2).
    split; [done |]. exists (evs1 ++ evs2). split.
    + unfold run in He2. by rewrite He2, He1, <- app_assoc.
    + intros e [?|?]%elem_of_app; [by apply Ha1 | by apply Ha2].
Qed.

(** X4: as long as no alarm service is there, no run of operations sets an
    alarm, and none of them but SetStatsCompanionService with a service
    brings one. *)
Theorem no_alarm_without_service
    (isVendorPulledAtom : Z → bool) (defaultCoolDownNs defaultPullTimeoutNs : Z) ops st :
  mStatsCompanionService st = None →
  Forall (λ op, is_connect op = false) ops →
  mStatsCompanionService
    (run isVendorPulledAtom defaultCoolDownNs defaultPullTimeoutNs ops st) = None
  ∧ ∀ timeMs,
      SetPullingAlarm timeMs
      ∉ emitted st (run isVendorPulledAtom defaultCoolDownNs defaultPullTimeoutNs ops st).
Proof.
  intros Hnone Hops.
  destruct (run_without_service isVendorPulledAtom defaultCoolDownNs defaultPullTimeoutNs
              ops st Hnone Hops) as (Hs & evs & He & Ha).
  split; [done |]. intros timeMs Hin.
  rewrite (emitted_app _ _ _ He) in Hin. by apply Ha in Hin.
Qed.

Lemma no_alarm_without_service_witness :
  mStatsCompanionService
    (run sample_isVendorPulledAtom 0 0
       [OpRegisterReceiver 10005 1%nat 0 (60 * NS_PER_SEC);
        OpOnAlarmFired sample_env (185 * NS_PER_SEC);
        OpSetStatsCompanionService None]
       (initial sample_table)) = None
  ∧ ∀ timeMs,
      SetPullingAlarm timeMs
      ∉ emitted (initial sample_table)
          (run sample_isVendorPulledAtom 0 0
             [OpRegisterReceiver 10005 1%nat 0 (60 * NS_PER_SEC);
              OpOnAlarmFired sample_env (185 * NS_PER_SEC);
              OpSetStatsCompanionService None]
             (initial sample_table)).
Proof.
  apply (no_alarm_without_service sample_isVendorPulledAtom 0 0).
  - reflexivity.
  - repeat constructor.
Defined.

(** ** Registration and the alarm *)

(** X5: RegisterReceiver sets the alarm only when it lowers the deadline: for
    a new pair whose first pull time is earlier than mNextPullTimeNs, the
    alarm is set to that time in milliseconds if a service is there; for a
    pair that is known, or a time that is not earlier, nothing is called at
    all. The pullers and the service are as before. *)
Theorem register_sets_alarm_when_earlier tagId rcv next interval st :
  mNextPullTimeNs st ≤ INT64_MAX →
  emitted st (RegisterReceiver tagId rcv next interval st)
  = (if bool_decide (¬ subscribed tagId rcv st ∧ next < mNextPullTimeNs st)
     then match mStatsCompanionService st with
          | Some _ => [SetPullingAlarm (next `quot` 1000000)]
          | None => []
          end
     else [])
  ∧ kAllPullAtomInfo (RegisterReceiver tagId rcv next interval st) = kAllPullAtomInfo st
  ∧ mStatsCompanionService (RegisterReceiver tagId rcv next interval st)
    = mStatsCompanionService st.
Proof.
  intros Hmax. destruct (decide (subscribed tagId rcv st)) as [Hs | Hn].
  - rewrite RegisterReceiver_known by done.
    rewrite bool_decide_eq_false_2 by tauto.
    split; [| done]. apply emitted_app. by rewrite app_nil_r.
  - unfold RegisterReceiver. fold (receivers_of tagId st).
    rewrite (not_registered _ _ _ Hn). simpl. case_bool_decide as Hlt.
    + rewrite bool_decide_eq_true_2 by done.
      rewrite kAllPullAtomInfo_updateAlarmLocked, mStatsCompanionService_updateAlarmLocked.
      split; [| done]. apply emitted_app. rewrite effects_updateAlarmLocked. simpl.
      unfold alarm_effects.
      rewrite bool_decide_eq_false_2 by (unfold NO_ALARM_UPDATE; lia). done.
    + rewrite bool_decide_eq_false_2 by tauto.
      split; [| done]. apply emitted_app. simpl. by rewrite app_nil_r.
Qed.

Lemma register_sets_alarm_when_earlier_witness :
  emitted (SetStatsCompanionService (Some 0%nat) sample_subscribed)
    (RegisterReceiver 10005 2%nat 0 (60 * NS_PER_SEC)
       (SetStatsCompanionService (Some 0%nat) sample_subscribed))
  = [].
Proof.
  rewrite (proj1 (register_sets_alarm_when_earlier 10005 2%nat 0 (60 * NS_PER_SEC)
                    (SetStatsCompanionService (Some 0%nat) sample_subscribed)
                    ltac:(vm_compute; discriminate))).
  reflexivity.
Defined.

(** ** Intervals and the grid of pull times *)

(** X6: the interval that RegisterReceiver stores for a requested interval is
    a whole number of minutes, at least one minute, not longer than the
    request unless the request is shorter than a minute, and rounding it
    again changes nothing. *)
Theorem rounded_interval_whole_minutes interval :
  int64_range interval →
  (60 * NS_PER_SEC | roundedIntervalNs interval)
  ∧ 60 * NS_PER_SEC ≤ roundedIntervalNs interval
  ∧ roundedIntervalNs interval ≤ Z.max (60 * NS_PER_SEC) interval
  ∧ roundedIntervalNs (roundedIntervalNs interval) = roundedIntervalNs interval.
Proof.
  intros Hr.
  rewrite (roundedIntervalNs_effective interval Hr).
  unfold effective_interval, floor_to_minute.
  assert (Hm : 0 < 60 * NS_PER_SEC) by (unfold NS_PER_SEC; lia).
  pose proof (Z.mul_div_le interval (60 * NS_PER_SEC) Hm) as Hle.
  set (q := interval `div` (60 * NS_PER_SEC)) in *. clearbody q.
  assert (Hdiv : (60 * NS_PER_SEC | Z.max (60 * NS_PER_SEC) (q * (60 * NS_PER_SEC)))).
  { destruct (Z.max_spec (60 * NS_PER_SEC) (q * (60 * NS_PER_SEC))) as [[_ ->] | [_ ->]].
    - by exists q.
    - exists 1. lia. }
  split; [done |]. split; [lia |]. split; [lia |].
  destruct Hdiv as [c Hc]. rewrite Hc.
  assert (Hc1 : 1 ≤ c) by nia.
  rewrite roundedIntervalNs_effective.
  - unfold effective_interval, floor_to_minute. rewrite Z.div_mul by lia. nia.
  - unfold int64_range, INT64_MIN, INT64_MAX, NS_PER_SEC in *. lia.
Qed.

Lemma rounded_interval_whole_minutes_witness :
  (60 * NS_PER_SEC | roundedIntervalNs (125 * NS_PER_SEC))
  ∧ 60 * NS_PER_SEC ≤ roundedIntervalNs (125 * NS_PER_SEC)
  ∧ roundedIntervalNs (125 * NS_PER_SEC) ≤ Z.max (60 * NS_PER_SEC) (125 * NS_PER_SEC)
  ∧ roundedIntervalNs (roundedIntervalNs (125 * NS_PER_SEC))
    = roundedIntervalNs (125 * NS_PER_SEC).
Proof.
  apply (rounded_interval_whole_minutes (125 * NS_PER_SEC)).
  unfold int64_range, INT64_MIN, INT64_MAX, NS_PER_SEC. lia.
Defined.



(** ** Alarms at which nothing is due *)

Lemma bind_nil_elem {A B} (f : A → list B) (l : list A) :
  (∀ x, x ∈ l → f x = []) → l ≫= f = [].
Proof.
  induction l as [|x l IH]; intros Hf; [done |].
  rewrite bind_cons, (Hf x) by left. apply IH. intros y Hy. apply Hf. by right.
Qed.

Lemma has_due_false t l : has_due t l = false ↔ ∀ r, r ∈ l → is_due t r = false.
Proof.
  unfold has_due. split.
  - intros Hn r Hr. destruct (is_due t r) eqn:Hd; [| done].
    assert (existsb (is_due t) l = true); [| congruence].
    apply existsb_exists. exists r. split; [by apply list_elem_of_In | done].
  - intros Hall. destruct (existsb (is_due t) l) eqn:He; [| done].
    apply existsb_exists in He as (r & Hr & Hd). apply list_elem_of_In in Hr.
    rewrite (Hall r Hr) in Hd. done.
Qed.

Lemma OnAlarmFired_nothing_due env t st :
  (∀ k, has_due t (receivers_of k st) = false) →
  mReceivers (OnAlarmFired env t st) = mReceivers st
  ∧ kAllPullAtomInfo (OnAlarmFired env t st) = kAllPullAtomInfo st
  ∧ effects (OnAlarmFired env t st)
    = effects st
      ++ alarm_effects (mNextPullTimeNs (OnAlarmFired env t st)) (mStatsCompanionService st).
Proof.
  intros Hnone.
  destruct (OnAlarmFired_spec env t st) as (Hrec & Hall & Hnext & Hsvc & Heff).
  split; [| split].
  - apply map_eq. intros k. rewrite Hrec.
    specialize (Hnone k). unfold receivers_of in Hnone.
    destruct (mReceivers st !! k) as [l|]; [| done]. simpl in *.
    by rewrite catch_up_no_due.
  - apply map_eq. intros k. by rewrite Hall, Hnone.
  - rewrite Heff, Hnext. f_equal.
    replace (dispatch_effects env t st) with (@nil Effect); [done |].
    symmetry. unfold dispatch_effects. apply bind_nil_elem.
    intros [k l] Hin. apply elem_of_entries in Hin. simpl.
    specialize (Hnone k). unfold receivers_of in Hnone. rewrite Hin in Hnone.
    unfold tag_effects. simpl in Hnone. by rewrite Hnone.
Qed.

(** X8: an alarm at which no record is due pulls nothing, delivers nothing
    and leaves the registry and the pullers as they are; it only computes
    the deadline anew, as the minimum of the next pull times of all records
    (NO_ALARM_UPDATE without records), and sets the alarm for it when a
    service is there. So a deadline that UnRegisterReceiver left behind is
    put right by the next alarm. *)
Theorem alarm_with_nothing_due env t st :
  (∀ k, has_due t (receivers_of k st) = false) →
  times_in_range st →
  mReceivers (OnAlarmFired env t st) = mReceivers st
  ∧ kAllPullAtomInfo (OnAlarmFired env t st) = kAllPullAtomInfo st
  ∧ deadline_is_minimum (OnAlarmFired env t st)
  ∧ emitted st (OnAlarmFired env t st)
    = (if bool_decide (mNextPullTimeNs (OnAlarmFired env t st) = NO_ALARM_UPDATE) then []
       else match mStatsCompanionService st with
            | Some _ =>
                [SetPullingAlarm (mNextPullTimeNs (OnAlarmFired env t st) `quot` 1000000)]
            | None => []
            end).
Proof.
  intros Hnone Hst.
  destruct (OnAlarmFired_nothing_due env t st Hnone) as (Hrec & Hall & Heff).
  split; [done |]. split; [done |]. split.
  - apply deadline_OnAlarmFired_all; [done |].
    intros [k r] Hin. apply elem_of_all_receivers in Hin.
    unfold accounted. simpl.
    by rewrite (proj1 (has_due_false t (receivers_of k st)) (Hnone k) r Hin).
  - by apply emitted_app.
Qed.

Lemma alarm_with_nothing_due_witness :
  deadline_is_minimum
    (OnAlarmFired sample_env (-1) (UnRegisterReceiver 10005 1%nat sample_subscribed)).
Proof.
  apply (alarm_with_nothing_due sample_env (-1)
           (UnRegisterReceiver 10005 1%nat sample_subscribed)).
  - intros k. apply has_due_false. intros r Hr.
    assert (Hin : (k, r) ∈ all_receivers (UnRegisterReceiver 10005 1%nat sample_subscribed))
      by (by apply elem_of_all_receivers).
    vm_compute in Hin. by apply elem_of_nil in Hin.
  - intros kr Hin. vm_compute in Hin. by apply elem_of_nil in Hin.
Defined.



(** ** Pullers registered at run time: further properties *)

(** X10: PullerForMatcherExists answers true for every tag of the vendor range,
    registered or not, and for another tag exactly when a puller is
    registered for it. So for a vendor tag without a puller the answer is
    true although a pull fails; after RegisterPullAtomCallback for a tag the
    answer is true, and after UnregisterPullAtomCallback it is true only for
    a vendor tag. *)
Theorem puller_for_matcher_exists (isVendorPulledAtom : Z → bool) tagId st :
  (isVendorPulledAtom tagId = true → PullerForMatcherExists isVendorPulledAtom tagId st = true)
  ∧ (isVendorPulledAtom tagId = false →
     (PullerForMatcherExists isVendorPulledAtom tagId st = true
      ↔ is_Some (kAllPullAtomInfo st !! tagId)))
  ∧ (isVendorPulledAtom tagId = true → kAllPullAtomInfo st !! tagId = None →
     ∀ data, (Pull tagId data st).1 = (false, data))
  ∧ (∀ uid coolDownNs timeoutNs additiveFields callbackPuller,
       PullerForMatcherExists isVendorPulledAtom tagId
         (RegisterPullAtomCallback uid tagId coolDownNs timeoutNs additiveFields
            callbackPuller st) = true)
  ∧ (∀ uid,
       PullerForMatcherExists isVendorPulledAtom tagId
         (UnregisterPullAtomCallback uid tagId st) = isVendorPulledAtom tagId).
Proof.
  unfold PullerForMatcherExists. split; [| split; [| split; [| split]]].
  - by intros ->.
  - intros ->. simpl. by rewrite bool_decide_eq_true.
  - intros _ Hnone data. unfold Pull, PullLocked. by rewrite Hnone.
  - intros. simpl. rewrite lookup_insert_eq.
    rewrite (bool_decide_eq_true_2 (is_Some (Some _))) by done. apply orb_true_r.
  - intros. simpl. rewrite lookup_delete_eq.
    rewrite (bool_decide_eq_false_2 (is_Some None)) by (by intros [? ?]).
    apply orb_false_r.
Qed.

Lemma puller_for_matcher_exists_witness :
  PullerForMatcherExists sample_isVendorPulledAtom 150001 (initial sample_table) = true
  ∧ ∀ data, (Pull 150001 data (initial sample_table)).1 = (false, data).
Proof.
  split.
  - apply (proj1 (puller_for_matcher_exists sample_isVendorPulledAtom 150001
                    (initial sample_table))).
    reflexivity.
  - apply (proj1 (proj2 (proj2 (puller_for_matcher_exists sample_isVendorPulledAtom 150001
                                  (initial sample_table))))); reflexivity.
Defined.

(** X11: a puller registered with RegisterPullAtomCallback, for any tag, or
    with RegisterPullerCallback, for a tag of the vendor range, replaces the
    puller that the tag had: the next pull of the tag calls the new puller
    and returns its answer. After either call the pullers of the other tags,
    the receivers and the deadline are as before, and the change of
    registration is reported once. *)
Theorem pull_calls_registered_puller
    (isVendorPulledAtom : Z → bool) (defaultCoolDownNs defaultPullTimeoutNs : Z)
    uid tagId coolDownNs timeoutNs additiveFields callbackPuller data st :
  (PullLocked tagId data
     (RegisterPullAtomCallback uid tagId coolDownNs timeoutNs additiveFields
        callbackPuller st)).1
  = pullAnswer callbackPuller (pullCalls callbackPuller) data
  ∧ kAllPullAtomInfo
      (RegisterPullAtomCallback uid tagId coolDownNs timeoutNs additiveFields
         callbackPuller st) !! tagId
    = Some (mkPullAtomInfo additiveFields coolDownNs callbackPuller timeoutNs)
  ∧ (∀ k, k ≠ tagId →
       kAllPullAtomInfo
         (RegisterPullAtomCallback uid tagId coolDownNs timeoutNs additiveFields
            callbackPuller st) !! k
       = kAllPullAtomInfo st !! k)
  ∧ emitted st
      (RegisterPullAtomCallback uid tagId coolDownNs timeoutNs additiveFields
         callbackPuller st)
    = [NotePullerCallbackRegistrationChanged tagId true]
  ∧ mReceivers
      (RegisterPullAtomCallback uid tagId coolDownNs timeoutNs additiveFields
         callbackPuller st) = mReceivers st
  ∧ mNextPullTimeNs
      (RegisterPullAtomCallback uid tagId coolDownNs timeoutNs additiveFields
         callbackPuller st) = mNextPullTimeNs st
  ∧ (isVendorPulledAtom tagId = true →
     (PullLocked tagId data
        (RegisterPullerCallback isVendorPulledAtom defaultCoolDownNs defaultPullTimeoutNs
           tagId callbackPuller st)).1
     = pullAnswer callbackPuller (pullCalls callbackPuller) data
     ∧ kAllPullAtomInfo
         (RegisterPullerCallback isVendorPulledAtom defaultCoolDownNs defaultPullTimeoutNs
            tagId callbackPuller st) !! tagId
       = Some (mkPullAtomInfo [] defaultCoolDownNs callbackPuller defaultPullTimeoutNs)
     ∧ (∀ k, k ≠ tagId →
          kAllPullAtomInfo
            (RegisterPullerCallback isVendorPulledAtom defaultCoolDownNs
               defaultPullTimeoutNs tagId callbackPuller st) !! k
          = kAllPullAtomInfo st !! k)
     ∧ emitted st
         (RegisterPullerCallback isVendorPulledAtom defaultCoolDownNs defaultPullTimeoutNs
            tagId callbackPuller st)
       = [NotePullerCallbackRegistrationChanged tagId true]
     ∧ mReceivers
         (RegisterPullerCallback isVendorPulledAtom defaultCoolDownNs defaultPullTimeoutNs
            tagId callbackPuller st) = mReceivers st
     ∧ mNextPullTimeNs
         (RegisterPullerCallback isVendorPulledAtom defaultCoolDownNs defaultPullTimeoutNs
            tagId callbackPuller st) = mNextPullTimeNs st
     ∧ mStatsCompanionService
         (RegisterPullerCallback isVendorPulledAtom defaultCoolDownNs defaultPullTimeoutNs
            tagId callbackPuller st) = mStatsCompanionService st).
Proof.
  split; [| split; [| split; [| split; [| split; [| split]]]]].
  - unfold PullLocked, RegisterPullAtomCallback. simpl. rewrite lookup_insert_eq. simpl.
    by destruct (pullAnswer callbackPuller (pullCalls callbackPuller) data) as [[] ?].
  - simpl. by rewrite lookup_insert_eq.
  - intros k Hne. simpl. by rewrite lookup_insert_ne.
  - by apply emitted_app.
  - done.
  - done.
  - intros Hv. unfold RegisterPullerCallback. rewrite Hv. simpl.
    split; [| split; [| split; [| split; [| split; [| split]]]]].
    + unfold PullLocked. simpl. rewrite lookup_insert_eq. simpl.
      by destruct (pullAnswer callbackPuller (pullCalls callbackPuller) data) as [[] ?].
    + by rewrite lookup_insert_eq.
    + intros k Hne. by rewrite lookup_insert_ne.
    + by apply emitted_app.
    + done.
    + done.
    + done.
Qed.

Lemma pull_calls_registered_puller_witness :
  (PullLocked 150001 []
     (RegisterPullerCallback sample_isVendorPulledAtom 0 0 150001 failing_puller
        (initial sample_table))).1
  = pullAnswer failing_puller (pullCalls failing_puller) []
  ∧ mReceivers
      (RegisterPullerCallback sample_isVendorPulledAtom 0 0 150001 failing_puller
         (initial sample_table))
    = mReceivers (initial sample_table).
Proof.
  destruct (proj2 (proj2 (proj2 (proj2 (proj2 (proj2
              (pull_calls_registered_puller sample_isVendorPulledAtom 0 0 0 150001 0 0 []
                 failing_puller [] (initial sample_table)))))))
              eq_refl)
    as (Hpull & _ & _ & _ & Hrec & _).
  split; [exact Hpull | exact Hrec].
Defined.

(** X12: after UnregisterPullAtomCallback for a tag, a pull of the tag returns
    false, calls no puller and reports nothing; the receivers registered for
    the tag stay registered. Registering a puller for a tag that had none
    and unregistering it again leaves the table of pullers as it was, with
    the two changes of registration reported. *)
Theorem unregistered_puller_is_gone
    uid tagId coolDownNs timeoutNs additiveFields callbackPuller data st :
  PullLocked tagId data (UnregisterPullAtomCallback uid tagId st)
  = (false, data, UnregisterPullAtomCallback uid tagId st)
  ∧ mReceivers (UnregisterPullAtomCallback uid tagId st) = mReceivers st
  ∧ mNextPullTimeNs (UnregisterPullAtomCallback uid tagId st) = mNextPullTimeNs st
  ∧ (kAllPullAtomInfo st !! tagId = None →
     kAllPullAtomInfo
       (UnregisterPullAtomCallback uid tagId
          (RegisterPullAtomCallback uid tagId coolDownNs timeoutNs additiveFields
             callbackPuller st))
     = kAllPullAtomInfo st)
  ∧ emitted st
      (UnregisterPullAtomCallback uid tagId
         (RegisterPullAtomCallback uid tagId coolDownNs timeoutNs additiveFields
            callbackPuller st))
    = [NotePullerCallbackRegistrationChanged tagId true;
       NotePullerCallbackRegistrationChanged tagId false].
Proof.
  split; [| split; [done | split; [done | split]]].
  - unfold PullLocked. simpl. by rewrite lookup_delete_eq.
  - intros Hnone. simpl. rewrite delete_insert_eq. by apply delete_id.
  - apply emitted_app. simpl. by rewrite <- app_assoc.
Qed.

Lemma unregistered_puller_is_gone_witness :
  kAllPullAtomInfo
    (UnregisterPullAtomCallback 0 7
       (RegisterPullAtomCallback 0 7 0 0 [] failing_puller (initial sample_table)))
  = kAllPullAtomInfo (initial sample_table).
Proof.
  apply (proj1 (proj2 (proj2 (proj2
           (unregistered_puller_is_gone 0 7 0 0 [] failing_puller []
              (initial sample_table)))))).
  reflexivity.
Defined.

(** ** Unregistering receivers *)

Lemma erase_first_absent rcv l :
  ¬ Exists (λ info, receiver info = rcv) l → erase_first rcv l = l.
Proof.
  induction l as [|it rest IH]; [done |].
  rewrite Exists_cons. intros Hn. cbn [erase_first].
  rewrite bool_decide_eq_false_2 by (intros ->; tauto).
  f_equal. apply IH. tauto.
Qed.

Lemma erase_first_others rcv l :
  filter (λ info, receiver info ≠ rcv) (erase_first rcv l)
  = filter (λ info, receiver info ≠ rcv) l.
Proof.
  induction l as [|it rest IH]; [done |].
  cbn [erase_first]. case_bool_decide as Heq.
  - by rewrite (filter_cons_False _ it) by (intros Hne; by apply Hne).
  - rewrite !filter_cons. by rewrite IH.
Qed.

Lemma erase_first_app_new rcv l info :
  ¬ Exists (λ info, receiver info = rcv) l → receiver info = rcv →
  erase_first rcv (l ++ [info]) = l.
Proof.
  induction l as [|it rest IH]; intros Hn Hr.
  - simpl. by rewrite bool_decide_eq_true_2.
  - rewrite Exists_cons in Hn. simpl.
    rewrite bool_decide_eq_false_2 by (intros ->; tauto).
    f_equal. apply IH; [tauto | done].
Qed.

(** X13: UnRegisterReceiver for a pair that has no record, be it that the tag
    is unknown or that the receiver is not registered for it, changes
    nothing at all. In every case it calls nothing, leaves the pullers, the
    deadline, the service and the receivers of the other tags as they are,
    and keeps the records of the other receivers of the tag in their
    order. *)
Theorem unregister_receiver_frame tagId rcv st :
  (¬ subscribed tagId rcv st → UnRegisterReceiver tagId rcv st = st)
  ∧ effects (UnRegisterReceiver tagId rcv st) = effects st
  ∧ kAllPullAtomInfo (UnRegisterReceiver tagId rcv st) = kAllPullAtomInfo st
  ∧ mNextPullTimeNs (UnRegisterReceiver tagId rcv st) = mNextPullTimeNs st
  ∧ mStatsCompanionService (UnRegisterReceiver tagId rcv st) = mStatsCompanionService st
  ∧ (∀ k, k ≠ tagId →
       receivers_of k (UnRegisterReceiver tagId rcv st) = receivers_of k st)
  ∧ filter (λ info, receiver info ≠ rcv)
      (receivers_of tagId (UnRegisterReceiver tagId rcv st))
    = filter (λ info, receiver info ≠ rcv) (receivers_of tagId st).
Proof.
  split; [| split; [| split; [| split; [| split; [| split]]]]].
  - intros Hn. unfold UnRegisterReceiver. unfold subscribed, receivers_of in Hn.
    destruct (mReceivers st !! tagId) as [l|] eqn:Hl; [| done]. simpl in Hn.
    rewrite (erase_first_absent rcv l Hn), insert_id by done. by destruct st.
  - unfold UnRegisterReceiver. by destruct (mReceivers st !! tagId).
  - unfold UnRegisterReceiver. by destruct (mReceivers st !! tagId).
  - apply mNextPullTimeNs_UnRegisterReceiver.
  - unfold UnRegisterReceiver. by destruct (mReceivers st !! tagId).
  - intros k Hne. rewrite receivers_of_UnRegisterReceiver. by rewrite decide_False.
  - rewrite receivers_of_UnRegisterReceiver, decide_True by done.
    apply erase_first_others.
Qed.

Lemma unregister_receiver_frame_witness :
  UnRegisterReceiver 10005 2%nat sample_subscribed = sample_subscribed
  ∧ UnRegisterReceiver 7 1%nat sample_subscribed = sample_subscribed.
Proof.
  split.
  - apply (proj1 (unregister_receiver_frame 10005 2%nat sample_subscribed)).
    apply (bool_decide_eq_false_1 (subscribed 10005 2%nat sample_subscribed)). reflexivity.
  - apply (proj1 (unregister_receiver_frame 7 1%nat sample_subscribed)).
    apply (bool_decide_eq_false_1 (subscribed 7 1%nat sample_subscribed)). reflexivity.
Defined.

(** X14: registering a new pair and unregistering it again gives back the
    receivers of every tag as they were; the deadline is not given back: it
    stays at the smaller of its old value and the first pull time of the
    registration. *)
Theorem register_then_unregister tagId rcv next interval st :
  ¬ subscribed tagId rcv st →
  (∀ k, receivers_of k (UnRegisterReceiver tagId rcv
                          (RegisterReceiver tagId rcv next interval st))
        = receivers_of k st)
  ∧ mNextPullTimeNs (UnRegisterReceiver tagId rcv
                       (RegisterReceiver tagId rcv next interval st))
    = Z.min (mNextPullTimeNs st) next.
Proof.
  intros Hn. split.
  - intros k. rewrite receivers_of_UnRegisterReceiver. case_decide as Hk.
    + subst k. rewrite receivers_of_RegisterReceiver_new by done.
      by apply erase_first_app_new.
    + by apply receivers_of_RegisterReceiver_ne.
  - rewrite mNextPullTimeNs_UnRegisterReceiver.
    apply (RegisterReceiver_new tagId rcv next interval st Hn).
Qed.

Lemma register_then_unregister_witness :
  (∀ k, receivers_of k (UnRegisterReceiver 10005 2%nat
                          (RegisterReceiver 10005 2%nat (-5) 0 sample_subscribed))
        = receivers_of k sample_subscribed)
  ∧ mNextPullTimeNs (UnRegisterReceiver 10005 2%nat
                       (RegisterReceiver 10005 2%nat (-5) 0 sample_subscribed))
    = Z.min (mNextPullTimeNs sample_subscribed) (-5).
Proof.
  apply (register_then_unregister 10005 2%nat (-5) 0 sample_subscribed).
  apply (bool_decide_eq_false_1 (subscribed 10005 2%nat sample_subscribed)). reflexivity.
Defined.

(** X15: no operation takes a tag out of the registry of receivers, not even
    UnRegisterReceiver for the last receiver of the tag, which leaves the
    tag with an empty list; and no operation other than UnRegisterReceiver
    makes the list of a tag shorter. *)
Theorem registry_never_shrinks
    (isVendorPulledAtom : Z → bool) (defaultCoolDownNs defaultPullTimeoutNs : Z) op st k :
  (is_Some (mReceivers st !! k) →
   is_Some (mReceivers
              (exec isVendorPulledAtom defaultCoolDownNs defaultPullTimeoutNs op st) !! k))
  ∧ (is_unregister op = false →
     (length (receivers_of k st)
      ≤ length (receivers_of k
                  (exec isVendorPulledAtom defaultCoolDownNs defaultPullTimeoutNs op st)))%nat)
  ∧ (∀ info, mReceivers st !! k = Some [info] →
             mReceivers (UnRegisterReceiver k (receiver info) st) !! k = Some []).
Proof.
  pose proof (exec_registry isVendorPulledAtom defaultCoolDownNs defaultPullTimeoutNs op st)
    as Hreg.
  split; [| split].
  - intros Hk.
    destruct op as [| | tagId rcv next interval | tagId rcv | env t | | | | | |];
      cbn [exec] in *;
      lazymatch type of Hreg with
      | True => idtac
      | _ => destruct Hreg as [Hm _]; by rewrite Hm
      end.
    + destruct (decide (subscribed tagId rcv st)) as [Hs | Hn].
      * by rewrite RegisterReceiver_known.
      * rewrite (proj1 (RegisterReceiver_new tagId rcv next interval st Hn)).
        destruct (decide (k = tagId)) as [-> | Hne];
          [by rewrite lookup_insert_eq | by rewrite lookup_insert_ne].
    + unfold UnRegisterReceiver. destruct (mReceivers st !! tagId) eqn:Hl; [| done].
      simpl. destruct (decide (k = tagId)) as [-> | Hne];
        [by rewrite lookup_insert_eq | by rewrite lookup_insert_ne].
    + rewrite (proj1 (OnAlarmFired_spec env t st) k).
      destruct Hk as [l ->]. done.
  - intros Hop.
    destruct op as [| | tagId rcv next interval | tagId rcv | env t | | | | | |];
      try discriminate; cbn [exec] in *;
      lazymatch type of Hreg with
      | True => idtac
      | _ => destruct Hreg as [Hm _]; unfold receivers_of; by rewrite Hm
      end.
    + destruct (decide (subscribed tagId rcv st)) as [Hs | Hn].
      * by rewrite RegisterReceiver_known.
      * destruct (decide (k = tagId)) as [-> | Hne].
        -- rewrite receivers_of_RegisterReceiver_new by done. rewrite length_app. lia.
        -- by rewrite receivers_of_RegisterReceiver_ne.
    + by rewrite OnAlarmFired_receivers_of, length_fmap.
  - intros info Hk. unfold UnRegisterReceiver. rewrite Hk. simpl.
    rewrite lookup_insert_eq. by rewrite bool_decide_eq_true_2.
Qed.

Lemma registry_never_shrinks_witness :
  is_Some (mReceivers
             (exec sample_isVendorPulledAtom 0 0 (OpUnRegisterReceiver 10005 1%nat)
                sample_subscribed) !! 10005).
Proof.
  apply (proj1 (registry_never_shrinks sample_isVendorPulledAtom 0 0
                  (OpUnRegisterReceiver 10005 1%nat) sample_subscribed 10005)).
  by eexists.
Defined.

(** ** The deliveries of one alarm *)

Lemma deliveries_of_app tagId evs1 evs2 :
  deliveries_of tagId (evs1 ++ evs2) = deliveries_of tagId evs1 ++ deliveries_of tagId evs2.
Proof. apply omap_app. Qed.

Lemma deliveries_of_none tagId evs :
  (∀ e, e ∈ evs → ∀ rcv data pullSuccess ts, e ≠ OnDataPulled tagId rcv data pullSuccess ts) →
  deliveries_of tagId evs = [].
Proof.
  induction evs as [|e evs IH]; intros Hn; [done |].
  unfold deliveries_of in *. cbn [omap list_omap].
  rewrite IH by (intros e' He'; apply Hn; by right).
  destruct e; try done. case_bool_decide; [| done].
  subst. exfalso. by eapply (Hn _ ltac:(left)).
Qed.

Lemma deliveries_of_served env t tagId info l :
  deliveries_of tagId
    (omap (λ r, if is_due t r then delivery env t tagId info r else None) l)
  = receiver <$> filter (λ r, served env t tagId r = true) l.
Proof.
  induction l as [|r l IH]; [done |].
  cbn [omap list_omap]. unfold delivery at 1.
  destruct (is_due t r) eqn:Hd; [destruct (promote env tagId (receiver r)) eqn:Hp |].
  - rewrite filter_cons_True by (unfold served; by rewrite Hd, Hp).
    unfold deliveries_of in *. cbn [omap list_omap].
    rewrite bool_decide_eq_true_2 by done. rewrite fmap_cons. f_equal. apply IH.
  - rewrite filter_cons_False by (unfold served; by rewrite Hd, Hp). apply IH.
  - rewrite filter_cons_False by (unfold served; by rewrite Hd). apply IH.
Qed.

Lemma filter_served_no_due env t tagId l :
  has_due t l = false → filter (λ r, served env t tagId r = true) l = [].
Proof.
  intros Hn. induction l as [|r l IH]; [done |].
  simpl in Hn. apply orb_false_elim in Hn as [Hr Hl].
  rewrite filter_cons_False by (unfold served; by rewrite Hr). by apply IH.
Qed.

Lemma deliveries_of_tag_effects env t tagId k info l :
  deliveries_of tagId (tag_effects env t k info l)
  = if bool_decide (k = tagId)
    then receiver <$> filter (λ r, served env t tagId r = true) l else [].
Proof.
  case_bool_decide as Hk.
  - subst k. unfold tag_effects. destruct (has_due t l) eqn:Hd.
    + rewrite !deliveries_of_app, deliveries_of_served.
      rewrite (deliveries_of_none tagId (pull_effects tagId info)).
      2: { intros e He. unfold pull_effects in He. destruct info;
             [| by apply elem_of_nil in He].
           apply elem_of_cons in He as [-> | He]; [done |].
           destruct (pull_answer _).1; [by apply elem_of_nil in He |].
           by apply list_elem_of_singleton in He as ->. }
      rewrite (deliveries_of_none tagId (delay_effects env t tagId info)); [done |].
      intros e He. unfold delay_effects in He.
      destruct (pull_answer _).1; [| by apply elem_of_nil in He].
      by apply list_elem_of_singleton in He as ->.
    + by rewrite filter_served_no_due.
  - apply deliveries_of_none. intros e He rcv data succ ts ->.
    apply tag_effects_tag in He. simpl in He. congruence.
Qed.

Lemma deliveries_of_entries env t st tagId : ∀ (E : list (Z * list ReceiverInfo)) l,
  NoDup E.*1 →
  (tagId, l) ∈ E ∨ ((tagId ∉ E.*1) ∧ l = []) →
  deliveries_of tagId
    (E ≫= λ pair, tag_effects env t pair.1 (kAllPullAtomInfo st !! pair.1) pair.2)
  = receiver <$> filter (λ r, served env t tagId r = true) l.
Proof.
  induction E as [|[k l0] E IH]; intros l Hnd Hl.
  - destruct Hl as [Hin | [_ ->]]; [by apply elem_of_nil in Hin | done].
  - apply NoDup_cons in Hnd as [Hk Hnd]. simpl in Hk.
    rewrite bind_cons, deliveries_of_app, deliveries_of_tag_effects. cbn [fst snd].
    case_bool_decide as Heq.
    + subst k. rewrite (IH [] Hnd) by (right; done). rewrite app_nil_r.
      destruct Hl as [Hin | [Hnot _]].
      * apply elem_of_cons in Hin as [Heq | Hin]; [by inversion Heq |].
        exfalso. apply Hk. apply list_elem_of_fmap. by exists (tagId, l).
      * exfalso. apply Hnot. rewrite fmap_cons. left.
    + simpl. apply IH; [done |]. destruct Hl as [Hin | [Hnot ->]].
      * left. apply elem_of_cons in Hin as [Heq' | Hin]; [by inversion Heq' | done].
      * right. split; [| done]. intros Hin. apply Hnot. rewrite fmap_cons. by right.
Qed.

Lemma unique_receivers_initial table : unique_receivers (initial table).
Proof. intros k. unfold receivers_of. simpl. rewrite lookup_empty. constructor. Qed.

Lemma NoDup_fmap_filter {A B} (f : A → B) (P : A → Prop) `{∀ x, Decision (P x)} l :
  NoDup (f <$> l) → NoDup (f <$> filter P l).
Proof.
  induction l as [|x l IH]; [done |].
  rewrite fmap_cons. intros [Hx Hnd]%NoDup_cons. rewrite filter_cons.
  destruct (decide (P x)); [| by apply IH].
  rewrite fmap_cons. apply NoDup_cons. split; [| by apply IH].
  intros (y & Hy & Hin)%list_elem_of_fmap. apply Hx.
  apply list_elem_of_fmap. exists y. split; [done |].
  by apply list_elem_of_filter in Hin as [_ ?].
Qed.

(** X16: in one call of OnAlarmFired the receivers that are handed data for a
    tag are the receivers of the records of the tag that are due and can be
    promoted, each record once, in the order in which the records were
    registered; with at most one record per pair, no receiver is called
    twice for the tag. *)
Theorem deliveries_follow_registration_order env t st tagId :
  deliveries_of tagId (emitted st (OnAlarmFired env t st))
  = receiver <$> filter (λ r, served env t tagId r = true) (receivers_of tagId st)
  ∧ (unique_receivers st →
     NoDup (deliveries_of tagId (emitted st (OnAlarmFired env t st)))).
Proof.
  assert (Heq : deliveries_of tagId (emitted st (OnAlarmFired env t st))
                = receiver <$> filter (λ r, served env t tagId r = true)
                                 (receivers_of tagId st)).
  { rewrite emitted_OnAlarmFired, deliveries_of_app.
    rewrite (deliveries_of_none tagId (alarm_effects _ _)).
    2: { intros e He rcv data succ ts ->. apply alarm_effects_tag in He. done. }
    rewrite app_nil_r. unfold dispatch_effects.
    apply deliveries_of_entries; [apply NoDup_fst_entries |].
    unfold receivers_of. destruct (mReceivers st !! tagId) as [l|] eqn:Hl.
    - left. by apply elem_of_entries.
    - right. split; [| done]. intros ([k l] & Hk & Hin)%list_elem_of_fmap.
      simpl in Hk. subst k. apply elem_of_entries in Hin. congruence. }
  split; [done |]. intros Hu. rewrite Heq. apply NoDup_fmap_filter. apply Hu.
Qed.

Lemma deliveries_follow_registration_order_witness :
  NoDup (deliveries_of 10005
           (emitted sample_two (OnAlarmFired sample_env 100 sample_two))).
Proof.
  apply (proj2 (deliveries_follow_registration_order sample_env 100 sample_two 10005)).
  apply (unique_exec sample_isVendorPulledAtom 0 0
           (OpRegisterReceiver 10005 4%nat 50 (130 * NS_PER_SEC))).
  apply (unique_exec sample_isVendorPulledAtom 0 0
           (OpRegisterReceiver 10005 9%nat 50 (130 * NS_PER_SEC))).
  apply unique_receivers_initial.
Defined.

(** X17: when the tag of a due record has no puller, OnAlarmFired calls no
    puller and reports nothing for the tag, but the receivers of its due
    records are still called, with no data and the failure flag, and the
    records are rescheduled like after a pull. *)
Theorem unknown_tag_is_delivered_as_failure env t st tagId i info :
  kAllPullAtomInfo st !! tagId = None →
  receivers_of tagId st !! i = Some info →
  nextPullTimeNs info ≤ t →
  promote env tagId (receiver info) = true →
  OnDataPulled tagId (receiver info) [] false t ∈ emitted st (OnAlarmFired env t st)
  ∧ (PullerPull tagId ∉ emitted st (OnAlarmFired env t st))
  ∧ (NotePullFailed tagId ∉ emitted st (OnAlarmFired env t st))
  ∧ (∀ delayNs, NotePullDelay tagId delayNs ∉ emitted st (OnAlarmFired env t st))
  ∧ receivers_of tagId (OnAlarmFired env t st) !! i = Some (reschedule t info)
  ∧ kAllPullAtomInfo (OnAlarmFired env t st) !! tagId = None.
Proof.
  intros Hnone Hi Hdue Hp.
  assert (Hd : is_due t info = true) by (unfold is_due; by rewrite bool_decide_eq_true_2).
  assert (Hin : info ∈ receivers_of tagId st) by (by eapply list_elem_of_lookup_2).
  assert (Hhas : has_due t (receivers_of tagId st) = true).
  { unfold has_due. apply existsb_exists. exists info.
    split; [by apply list_elem_of_In | done]. }
  assert (Hno : ∀ e, effect_tag e = Some tagId →
                     (∀ rcv data succ ts, e ≠ OnDataPulled tagId rcv data succ ts) →
                     e ∉ emitted st (OnAlarmFired env t st)).
  { intros e Htag Hnd He.
    apply (elem_of_emitted_OnAlarmFired env t st tagId e Htag) in He.
    rewrite Hnone in He.
    apply elem_of_tag_effects in He as [_ [He | [He | (r & _ & _ & He)]]].
    - by apply elem_of_nil in He.
    - by apply elem_of_nil in He.
    - unfold delivery in He. destruct (promote env tagId (receiver r)); [| done].
      inversion He; subst. by eapply Hnd. }
  split; [| split; [| split; [| split; [| split]]]].
  - apply (elem_of_emitted_OnAlarmFired env t st tagId); [done |].
    apply elem_of_tag_effects. split; [done |]. right; right.
    exists info. split; [done |]. split; [done |].
    unfold delivery. by rewrite Hp, Hnone.
  - by apply Hno.
  - by apply Hno.
  - intros delayNs. by apply Hno.
  - rewrite (OnAlarmFired_lookup env t st tagId i info Hi).
    unfold catch_up, served. by rewrite Hd, Hp.
  - rewrite (proj1 (proj2 (OnAlarmFired_spec env t st)) tagId), Hnone.
    by destruct (has_due _ _).
Qed.

Lemma unknown_tag_is_delivered_as_failure_witness :
  OnDataPulled 7 1%nat [] false 100
  ∈ emitted (RegisterReceiver 7 1%nat 50 (60 * NS_PER_SEC) (initial sample_table))
      (OnAlarmFired sample_env 100
         (RegisterReceiver 7 1%nat 50 (60 * NS_PER_SEC) (initial sample_table))).
Proof.
  apply (proj1 (unknown_tag_is_delivered_as_failure sample_env 100
                  (RegisterReceiver 7 1%nat 50 (60 * NS_PER_SEC) (initial sample_table))
                  7 0%nat (mkReceiverInfo 50 (60 * NS_PER_SEC) 1%nat)
                  eq_refl eq_refl ltac:(simpl; lia) eq_refl)).
Defined.

(** ** The deadline after an alarm *)



(** X19: in every state that a run of operations reaches from the initial
    state, whatever intervals were asked for, every record has an interval
    of at least one minute; and OnAlarmFired changes neither the interval
    nor the receiver of a record, nor the number or the order of the records
    of a tag. *)
Theorem intervals_stay_at_least_a_minute
    (isVendorPulledAtom : Z → bool) (defaultCoolDownNs defaultPullTimeoutNs : Z)
    ops table env t k :
  intervals_rounded
    (run isVendorPulledAtom defaultCoolDownNs defaultPullTimeoutNs ops (initial table))
  ∧ ∀ st,
      intervalNs <$> receivers_of k (OnAlarmFired env t st)
      = intervalNs <$> receivers_of k st
      ∧ receiver <$> receivers_of k (OnAlarmFired env t st)
        = receiver <$> receivers_of k st.
Proof.
  split; [apply intervals_rounded_run |].
  intros st. rewrite OnAlarmFired_receivers_of, <- !list_fmap_compose. split.
  - apply list_fmap_ext. intros i x _. simpl. apply catch_up_intervalNs.
  - apply list_fmap_ext. intros i x _. simpl. apply catch_up_receiver.
Qed.
